(** * lazy-astroph: keyword matching, aggregation and channel filtering

    A shallow embedding of [lazy_astroph.py].  Python [str] values are
    lists of characters; the model covers the 7-bit range, on which
    [is_space], [lower] and the comparison of characters are Python's.
    Mutable [Paper] objects live in a heap indexed by references, so that
    the [posted_to_slack] flag is shared between the channel filter and
    the webhook dispatch exactly as in the script. *)

From Stdlib Require Import Ascii String QArith Lqa Sorted.
From stdpp Require Import base tactics option list.

Open Scope nat_scope.
Open Scope list_scope.

(** ** Python strings *)

Definition pystr := list ascii.

Definition str (s : string) : pystr := list_ascii_of_string s.

Definition code (c : ascii) : nat := nat_of_ascii c.

(** [str.isspace] on the 7-bit range: TAB, LF, VT, FF, CR, the four
    separators FS, GS, RS, US, and the blank. *)
Definition is_space (c : ascii) : bool :=
  let n := code c in
  ((9 <=? n) && (n <=? 13)) || ((28 <=? n) && (n <=? 31)) || (n =? 32).

Definition lower_char (c : ascii) : ascii :=
  let n := code c in
  if (65 <=? n) && (n <=? 90) then ascii_of_nat (n + 32) else c.

(** [s.lower()] *)
Definition lower (s : pystr) : pystr := map lower_char s.

Definition ascii_eqb (a b : ascii) : bool := Ascii.eqb a b.

(** [a == b] on strings *)
Fixpoint str_eqb (a b : pystr) : bool :=
  match a, b with
  | [], [] => true
  | x :: a', y :: b' => ascii_eqb x y && str_eqb a' b'
  | _, _ => false
  end.

(** [h.startswith(n)] *)
Fixpoint startswith (n h : pystr) : bool :=
  match n, h with
  | [], _ => true
  | x :: n', y :: h' => ascii_eqb x y && startswith n' h'
  | _ :: _, [] => false
  end.

(** [n in h] *)
Fixpoint isin (n h : pystr) : bool :=
  startswith n h ||
  match h with
  | [] => false
  | _ :: h' => isin n h'
  end.

(** [x in l] for a list of strings *)
Definition str_mem (x : pystr) (l : list pystr) : bool :=
  existsb (str_eqb x) l.

(** [s.replace(old, new)] for a one-character [old] *)
Definition replace_char (old : ascii) (new : pystr) (s : pystr) : pystr :=
  flat_map (fun c => if ascii_eqb c old then new else [c]) s.

Definition LF : ascii := ascii_of_nat 10.
Definition SP : ascii := ascii_of_nat 32.

(** [s.replace("\n", " ")] *)
Definition replace_nl (s : pystr) : pystr := replace_char LF [SP] s.

Fixpoint drop_while (f : ascii -> bool) (s : pystr) : pystr :=
  match s with
  | [] => []
  | c :: s' => if f c then drop_while f s' else s
  end.

Fixpoint take_while (f : ascii -> bool) (s : pystr) : pystr :=
  match s with
  | [] => []
  | c :: s' => if f c then c :: take_while f s' else []
  end.

Definition char_in (chars : pystr) (c : ascii) : bool :=
  existsb (ascii_eqb c) chars.

Definition lstrip_by (f : ascii -> bool) (s : pystr) : pystr := drop_while f s.
Definition rstrip_by (f : ascii -> bool) (s : pystr) : pystr :=
  rev (drop_while f (rev s)).
Definition strip_by (f : ascii -> bool) (s : pystr) : pystr :=
  rstrip_by f (lstrip_by f s).

(** [s.strip(chars)], [s.strip()], [s.rstrip()] *)
Definition strip_chars (chars : pystr) (s : pystr) : pystr :=
  strip_by (char_in chars) s.
Definition strip (s : pystr) : pystr := strip_by is_space s.
Definition rstrip (s : pystr) : pystr := rstrip_by is_space s.

(** Does [s] begin with a blank, or is it empty? *)
Definition starts_blank (s : pystr) : bool :=
  match s with
  | [] => true
  | c :: _ => is_space c
  end.

(** [s.split()]: the maximal runs of non-blank characters, in order.  A
    non-blank character either is a word of its own, when a blank or the
    end follows, or extends the word its successor opens. *)
Fixpoint split_ws (s : pystr) : list pystr :=
  match s with
  | [] => []
  | c :: s' =>
      if is_space c then split_ws s'
      else match split_ws s' with
           | [] => [[c]]
           | w :: ws =>
               if starts_blank s' then [c] :: w :: ws else (c :: w) :: ws
           end
  end.

(** [s.split(sep)] for a non-empty [sep]: pieces between the
    non-overlapping occurrences of [sep], found left to right.  [skip]
    counts the characters of a separator still to be passed over and [cur]
    holds the current piece, reversed. *)
Fixpoint split_on_aux (sep : pystr) (skip : nat) (cur : pystr) (s : pystr)
  : list pystr :=
  match s with
  | [] => [rev cur]
  | c :: s' =>
      match skip with
      | S k => split_on_aux sep k cur s'
      | O =>
          if startswith sep s
          then rev cur :: split_on_aux sep (length sep - 1) [] s'
          else split_on_aux sep 0 (c :: cur) s'
      end
  end.

Definition split_on (sep : pystr) (s : pystr) : list pystr :=
  split_on_aux sep 0 [] s.

(** [sep.join(l)] *)
Fixpoint join (sep : pystr) (l : list pystr) : pystr :=
  match l with
  | [] => []
  | [x] => x
  | x :: l' => x ++ sep ++ join sep l'
  end.

(** [a < b] on strings: lexicographic by character code. *)
Fixpoint str_ltb (a b : pystr) : bool :=
  match a, b with
  | _, [] => false
  | [], _ :: _ => true
  | x :: a', y :: b' =>
      if code x <? code y then true
      else if code y <? code x then false
      else str_ltb a' b'
  end.

(** [s[-2:]] and [s[:len(s)-1]] *)
Definition last_two (s : pystr) : pystr := drop (length s - 2) s.
Definition drop_last (s : pystr) : pystr := take (length s - 1) s.

(** ** Numbers read from identifiers

    [float(s)] gives the binary64 number nearest to the number [s]
    denotes, ties going to the even significand.  It is modelled on plain
    decimal literals, digits with at most one point, whose value is zero
    or rounds to a normal number; the result is kept as the rational it
    is, so that comparing floats is comparing rationals.  [None] stands
    for a [ValueError] and for the literals left out (signs, exponents,
    blanks, underscores, [inf] and [nan], values out of the normal
    range). *)

Definition is_digit (c : ascii) : bool := (48 <=? code c) && (code c <=? 57).

Definition digits_value (s : pystr) : Z :=
  fold_left (fun acc c => (10 * acc + Z.of_nat (code c - 48))%Z) s 0%Z.

Definition pow10 (k : nat) : positive := Z.to_pos (10 ^ Z.of_nat k).

(** The digits of a plain decimal literal: those before the point and
    those after it. *)
Definition decimal_digits (s : pystr) : option (pystr * pystr) :=
  let ip := take_while is_digit s in
  match drop_while is_digit s with
  | [] => if 1 <=? length ip then Some (ip, []) else None
  | c :: fr =>
      if ascii_eqb c (ascii_of_nat 46) && forallb is_digit fr
         && (1 <=? length ip + length fr)
      then Some (ip, fr) else None
  end.

(** The number a plain decimal literal denotes. *)
Definition decimal_of (s : pystr) : option Q :=
  '(ip, fr) ← decimal_digits s;
  Some (Qmake (digits_value (ip ++ fr)) (pow10 (length fr))).

(** The integer nearest to [n / d], the even one of two equally near. *)
Definition round_half_even (n d : Z) : Z :=
  let q := (n / d)%Z in
  let r := (n mod d)%Z in
  if (2 * r <? d)%Z then q
  else if (d <? 2 * r)%Z then (q + 1)%Z
  else if Z.even q then q else (q + 1)%Z.

(** [n / d] divided by [2 ^ e], as a fraction of integers. *)
Definition scaled (n d e : Z) : Z * Z :=
  if (0 <=? e)%Z then (n, (d * 2 ^ e)%Z) else ((n * 2 ^ (- e))%Z, d).

(** Is [n / d / 2 ^ e] in the range of a 53-bit significand? *)
Definition in_binade (n d e : Z) : bool :=
  let '(n', d') := scaled n d e in
  (2 ^ 52 * d' <=? n')%Z && (n' <? 2 ^ 53 * d')%Z.

(** The number [m * 2 ^ e]. *)
Definition dyadic (m e : Z) : Q :=
  if (0 <=? e)%Z then inject_Z (m * 2 ^ e)
  else Qmake m (Z.to_pos (2 ^ (- e))).

(** The binary64 number nearest to [n / d], ties to even, for [n >= 0]
    and [d > 0], where it is zero or a normal number. *)
Definition binary64_frac (n d : Z) : option Q :=
  if (n =? 0)%Z then Some 0%Q
  else
    let e0 := (Z.log2 n - Z.log2 d - 52)%Z in
    let e := if in_binade n d e0 then e0 else (e0 - 1)%Z in
    if (0 <? n)%Z && in_binade n d e && (-1074 <=? e)%Z && (e <=? 970)%Z
    then let '(n', d') := scaled n d e in
         Some (dyadic (round_half_even n' d') e)
    else None.

Definition binary64 (x : Q) : option Q :=
  binary64_frac (Qnum (Qred x)) (Zpos (Qden (Qred x))).

Definition float_of (s : pystr) : option Q :=
  x ← decimal_of s; binary64 x.

Definition Qltb (a b : Q) : bool := negb (Qle_bool b a).

(** [s.split("v")[0]] *)
Definition strip_version (s : pystr) : pystr :=
  hd [] (split_on (str "v") s).

(** ** Data model *)

(** [class Keyword]; [matching] is the string the script stores. *)
Record Keyword := mkKeyword {
  name : pystr;
  matching : pystr;
  required : bool;
  channel : option pystr;
  excludes : list pystr
}.

(** [class Paper]; [posted_to_slack] only ever holds [0], [False] or [1]
    and is only tested for truth. *)
Record Paper := mkPaper {
  arxiv_id : pystr;
  title : pystr;
  url : pystr;
  keywords : list pystr;
  channels : list (option pystr);
  posted_to_slack : bool
}.

(** An entry of the parsed feed: [e.id], [e.title], [e.summary] and the
    [(rel, href)] pairs of [e.links]. *)
Record Entry := mkEntry {
  e_id : pystr;
  e_title : pystr;
  e_summary : pystr;
  e_links : list (pystr * pystr)
}.

Definition opt_str_eqb (a b : option pystr) : bool :=
  match a, b with
  | None, None => true
  | Some x, Some y => str_eqb x y
  | _, _ => false
  end.

(** [Paper.__eq__] *)
Definition Paper_eqb (p q : Paper) : bool := str_eqb (arxiv_id p) (arxiv_id q).

(** [Paper.kw_str] *)
Definition kw_str (p : Paper) : pystr := join (str ", ") (keywords p).

(** [Paper.__lt__] *)
Definition Paper_ltb (p q : Paper) : bool :=
  if length (keywords p) =? length (keywords q)
  then str_ltb (kw_str p) (kw_str q)
  else length (keywords p) <? length (keywords q).

(** [Paper.__str__] *)
Definition Paper_str (p : Paper) : pystr :=
  arxiv_id p ++ str " : " ++ join [SP] (split_ws (title p))
  ++ [LF] ++ str "  " ++ url p ++ [LF].

(** The elements a Python set keeps when it is filled from [l]: the first
    of every class of equal elements. *)
Fixpoint dedup_by {A} (eqb : A -> A -> bool) (l : list A) : list A :=
  match l with
  | [] => []
  | x :: l' => x :: filter (fun y => negb (eqb x y)) (dedup_by eqb l')
  end.

(** [l.sort(reverse=True)] with [ltb] as [__lt__]: stable, descending. *)
Fixpoint insert_desc {A} (ltb : A -> A -> bool) (x : A) (l : list A) : list A :=
  match l with
  | [] => [x]
  | y :: l' => if ltb x y then y :: insert_desc ltb x l' else x :: y :: l'
  end.

Definition sort_desc {A} (ltb : A -> A -> bool) (l : list A) : list A :=
  foldr (insert_desc ltb) [] l.

(** References to [Paper] objects and the heap that holds them. *)
Abbreviation ref := nat.
Abbreviation heap := (list Paper).

Section Model.

(** The order in which a Python set hands out its elements is fixed by
    hashing and is left open: [set_order] is any rearrangement. *)
Variable set_order : forall A : Type, list A -> list A.
Hypothesis set_order_perm : forall A (l : list A), set_order A l ≡ₚ l.

(** [list(set(l))] *)
Definition py_set {A} (eqb : A -> A -> bool) (l : list A) : list A :=
  set_order A (dedup_by eqb l).

(** [Keyword.__init__] *)
Definition Keyword_init (nm mt : pystr) (rq : bool) (ch : option pystr)
    (ex : list pystr) : Keyword :=
  mkKeyword nm mt rq ch (py_set str_eqb ex).

(** [Paper.__init__] *)
Definition Paper_init (id ttl u : pystr) (kws : list pystr)
    (chs : list (option pystr)) : Paper :=
  mkPaper id (replace_char (ascii_of_nat 39) [] ttl) u kws
          (py_set opt_str_eqb chs) false.

(** *** Feed Matcher *)

(** The characters handed to [strip] in [get_match]: the double quote,
    colon, period, comma, exclamation mark and question mark. *)
Definition PUNCT : pystr := ascii_of_nat 34 :: str ":.,!?".

(** [get_match(k)], with the [title] and [abstract] of the enclosing
    loop body; the result is [(matched, excluded)]. *)
Definition get_match (ttl abstract : pystr) (k : Keyword) : bool * bool :=
  let excluded :=
    existsb (fun n => isin n (replace_nl (lower abstract)) || isin n (lower ttl))
            (excludes k) in
  if excluded then (true, true)
  else if str_eqb (matching k) (str "any") then
    if isin (name k) (replace_nl (lower abstract)) || isin (name k) (lower ttl)
    then (true, false) else (false, false)
  else if str_eqb (matching k) (str "unique") then
    let qa := map (fun l => strip_chars PUNCT (lower l)) (split_ws abstract) in
    let qt := map (fun l => strip_chars PUNCT (lower l)) (split_ws ttl) in
    if str_mem (name k) (qa ++ qt) then (true, false) else (false, false)
  else (false, false).

(** The loop over [keywords]: returns [meets_requirements] and
    [key_match_results]; [acc] is [key_match_results] so far. *)
Fixpoint match_keywords (ttl abstract : pystr) (ks : list Keyword)
    (acc : list Keyword) : bool * list Keyword :=
  match ks with
  | [] => (true, acc)
  | k :: ks' =>
      let '(mtch, excluded) := get_match ttl abstract k in
      if required k && negb mtch then (false, acc)
      else if mtch && negb excluded
           then match_keywords ttl abstract ks' (acc ++ [k])
           else match_keywords ttl abstract ks' acc
  end.

(** The state of the loop over [feed.entries]: [results], [latest_id]
    and the local [url], which keeps its value from one entry to the next
    and is unbound until some entry has an alternate link. *)
Record qstate := mkQ {
  results : list Paper;
  latest_id : option pystr;
  cur_url : option pystr
}.

Definition q0 : qstate := mkQ [] None None.

(** [arxiv_id = e.id.split("/abs/")[-1]] *)
Definition entry_id (e : Entry) : pystr :=
  List.last (split_on (str "/abs/") (e_id e)) [].

(** [title = e.title.replace("\n", " ")] *)
Definition entry_title (e : Entry) : pystr := replace_nl (e_title e).

(** The test of lines 192-195: [Some true] when the entry is passed over. *)
Definition before_marker (old_id : option pystr) (id : pystr) : option bool :=
  match old_id with
  | None => Some false
  | Some o =>
      a ← float_of (strip_version id);
      b ← float_of (strip_version o);
      Some (Qltb a b)
  end.

(** The loop over [e.links] *)
Definition find_url (links : list (pystr * pystr)) (u : option pystr)
  : option pystr :=
  fold_left (fun u l => if str_eqb (fst l) (str "alternate") then Some (snd l) else u)
            links u.

(** Lines 197-256: the part of the loop body after the resume test. *)
Definition evaluate_entry (ks : list Keyword) (st : qstate) (e : Entry)
  : option qstate :=
  let id := entry_id e in
  let ttl := entry_title e in
  let u := find_url (e_links e) (cur_url st) in
  let abstract := e_summary e in
  let '(meets_requirements, key_match_results) :=
    match_keywords ttl abstract ks [] in
  let keys_matched := py_set str_eqb (map name key_match_results) in
  let chs := map channel key_match_results in
  match keys_matched with
  | [] => Some (mkQ (results st) (latest_id st) u)
  | _ :: _ =>
      u' ← u;
      Some (mkQ (results st ++ [Paper_init id ttl u' keys_matched chs])
                (latest_id st) (Some u'))
  end.

(** One turn of the loop over [feed.entries]. *)
Definition do_entry (ks : list Keyword) (old_id : option pystr)
    (st : qstate) (e : Entry) : option qstate :=
  let id := entry_id e in
  let st1 := mkQ (results st)
                 (match latest_id st with None => Some id | l => l end)
                 (cur_url st) in
  skip ← before_marker old_id id;
  if (skip : bool) then Some st1 else evaluate_entry ks st1 e.

Fixpoint do_entries (ks : list Keyword) (old_id : option pystr)
    (st : qstate) (es : list Entry) : option qstate :=
  match es with
  | [] => Some st
  | e :: es' => st' ← do_entry ks old_id st e; do_entries ks old_id st' es'
  end.

(** [ArxivQuery.do_query] on the entries of the parsed response; fetching
    the response and leaving when it reports no result are the fetcher's
    part. *)
Definition do_query (ks : list Keyword) (old_id : option pystr)
    (es : list Entry) : option (list Paper * option pystr) :=
  st ← do_entries ks old_id q0 es;
  Some (results st, latest_id st).

(** *** Paper Aggregator *)

(** Lines 310-311 *)
Definition aggregate (cat_papers : list Paper) : list Paper :=
  sort_desc Paper_ltb (py_set Paper_eqb cat_papers).

(** The loop of [search_arxiv] over the categories, each given by the
    entries its query returns. *)
Fixpoint search_loop (ks : list Keyword) (old_id : option pystr)
    (feeds : list (list Entry)) (cat_papers : list Paper)
    (cat_last_id : pystr) : option (list Paper * pystr) :=
  match feeds with
  | [] => Some (cat_papers, cat_last_id)
  | es :: feeds' =>
      '(papers, last) ← do_query ks old_id es;
      a ← float_of (strip_version cat_last_id);
      last_id ← last;
      b ← float_of (strip_version last_id);
      search_loop ks old_id feeds' (cat_papers ++ papers)
                  (if Qltb a b then last_id else cat_last_id)
  end.

Definition search_arxiv (ks : list Keyword) (old_id : option pystr)
    (feeds : list (list Entry)) : option (list Paper * pystr) :=
  '(cat_papers, cat_last_id) ← search_loop ks old_id feeds [] (str "0000.00000");
  Some (aggregate cat_papers, cat_last_id).

(** *** Channel Filter

    Papers are objects: a list of papers is a list of references into a
    heap ([ref], [heap]), and setting [posted_to_slack] updates the heap.
    A reference outside the heap cannot arise in Python; the loops pass
    over it. *)

(** [channel_req]: a dict from channel to required count, as its items
    in insertion order. *)
Definition dict := list (pystr * Z).

Definition set_posted (b : bool) (p : Paper) : Paper :=
  mkPaper (arxiv_id p) (title p) (url p) (keywords p) (channels p) b.

(** [for p in papers: p.posted_to_slack = False] *)
Definition reset_posted (papers : list ref) (h : heap) : heap :=
  fold_left (fun h r => alter (set_posted false) r h) papers h.

(** [c in p.channels] and [len(p.keywords) >= channel_req[c]] *)
Definition wants (c : pystr) (n : Z) (p : Paper) : bool :=
  existsb (opt_str_eqb (Some c)) (channels p)
  && (n <=? Z.of_nat (length (keywords p)))%Z.

(** The three nested tests shared by lines 326-328 and 379-381. *)
Definition qualifies (c : pystr) (n : Z) (p : Paper) : bool :=
  negb (posted_to_slack p) && wants c n p.

(** The inner loop of [filter_keyword_requires] for channel [c]. *)
Fixpoint filter_channel (c : pystr) (n : Z) (papers : list ref)
    (h : heap) (filtered : list ref) : heap * list ref :=
  match papers with
  | [] => (h, filtered)
  | r :: rest =>
      match h !! r with
      | Some p =>
          if qualifies c n p
          then filter_channel c n rest (<[r := set_posted true p]> h) (filtered ++ [r])
          else filter_channel c n rest h filtered
      | None => filter_channel c n rest h filtered
      end
  end.

(** The loop [for c in channel_req], reading [channel_req[c]]. *)
Fixpoint filter_channels (req : dict) (papers : list ref)
    (h : heap) (filtered : list ref) : heap * list ref :=
  match req with
  | [] => (h, filtered)
  | (c, n) :: req' =>
      let '(h', filtered') := filter_channel c n papers h filtered in
      filter_channels req' papers h' filtered'
  end.

(** [filter_keyword_requires(papers, channel_req)] *)
Definition filter_keyword_requires (papers : list ref)
    (channel_req : option dict) (h : heap) : heap * list ref :=
  match channel_req with
  | None => (h, papers)
  | Some req => filter_channels req papers (reset_posted papers h) []
  end.

(** *** Notification Dispatch *)

(** The payload handed to the webhook for one channel. *)
Record payload := mkPayload {
  pl_channel : pystr;
  pl_username : option pystr;
  pl_icon_emoji : option pystr;
  pl_text : pystr
}.

(** [u"{} [{}]\n\n".format(p, keywds)] *)
Definition post_text (p : Paper) : pystr :=
  let keywds := strip (join (str ", ") (keywords p)) in
  Paper_str p ++ str " [" ++ keywds ++ str "]" ++ [LF; LF].

(** The inner loop of [slack_post] for channel [c]: the body grows by
    the text of every paper taken. *)
Fixpoint channel_body (c : pystr) (n : Z) (papers : list ref)
    (h : heap) (body : pystr) : heap * pystr :=
  match papers with
  | [] => (h, body)
  | r :: rest =>
      match h !! r with
      | Some p =>
          if qualifies c n p
          then channel_body c n rest (<[r := set_posted true p]> h)
                            (body ++ post_text p)
          else channel_body c n rest h body
      | None => channel_body c n rest h body
      end
  end.

(** [slack_post]: the payloads sent, in order; none when there is no
    webhook, where the script only prints the channel names. *)
Fixpoint slack_post (papers : list ref) (req : dict)
    (username icon_emoji webhook : option pystr) (h : heap)
  : heap * list payload :=
  match req with
  | [] => (h, [])
  | (c, n) :: req' =>
      let '(h', body) := channel_body c n papers h [] in
      let '(h'', sent) := slack_post papers req' username icon_emoji webhook h' in
      match webhook with
      | None => (h'', sent)
      | Some _ => (h'', mkPayload c username icon_emoji body :: sent)
      end
  end.

(** The delivery steps of [doit] outside a dry run: the papers found by
    [search_arxiv] are fresh objects, filtered and then posted. *)
Definition deliver (papers : list Paper) (channel_req : dict)
    (username icon_emoji webhook : option pystr) : list ref * list payload :=
  let '(h, filtered) :=
    filter_keyword_requires (seq 0 (length papers)) (Some channel_req) papers in
  let '(_, sent) := slack_post filtered channel_req username icon_emoji webhook h in
  (filtered, sent).

(** *** RuleSet Parser *)

(** [int(s)] on an optional sign followed by digits; [None] for a
    [ValueError] and for the other spellings Python reads. *)
Definition int_of (s : pystr) : option Z :=
  let body sgn ds :=
    if (1 <=? length ds) && forallb is_digit ds
    then Some (sgn * digits_value ds)%Z else None in
  match s with
  | c :: ds =>
      if ascii_eqb c (ascii_of_nat 45) then body (-1)%Z ds
      else if ascii_eqb c (ascii_of_nat 43) then body 1%Z ds
      else body 1%Z s
  | [] => None
  end.

(** [d[k] = v]: an existing key keeps its place. *)
Fixpoint dict_set (d : dict) (k : pystr) (v : Z) : dict :=
  match d with
  | [] => [(k, v)]
  | (k', v') :: d' =>
      if str_eqb k' k then (k', v) :: d' else (k', v') :: dict_set d' k v
  end.

(** What the loop over the lines of the inputs file carries. *)
Record pstate := mkP {
  p_channel : option pystr;
  p_channel_req : dict;
  p_keywords : list Keyword
}.

Definition p0 : pstate := mkP None [] [].

(** Lines 443-449: a line that declares a channel. *)
Definition channel_line (l : pystr) (st : pstate) : option pstate :=
  let ch := split_ws l in
  c ← head ch;
  requires ←
    (if length ch =? 2
     then s ← ch !! 1; v ← split_on (str "=") s !! 1; int_of v
     else Some 1%Z);
  Some (mkP (Some c) (dict_set (p_channel_req st) c requires) (p_keywords st)).

(** Lines 461-471: the suffixes are looked for in the last two characters
    as they were before anything was cut off. *)
Definition strip_suffixes (kw : pystr) : pystr * pystr * bool :=
  let lt := last_two kw in
  let '(mt, kw1) :=
    if isin (str "-") lt then (str "unique", drop_last kw)
    else (str "any", kw) in
  let '(rq, kw2) :=
    if isin (str "!") lt then (true, drop_last kw1) else (false, kw1) in
  (kw2, mt, rq).

(** Lines 452-474: a line that holds a keyword. *)
Definition keyword_line (l : pystr) (st : pstate) : option pstate :=
  '(kw, excl) ←
    (if isin (str "not:") l
     then match split_on (str "not:") l with
          | [kw; nots] => Some (strip kw, map strip (split_on (str ",") nots))
          | _ => None
          end
     else Some (strip l, []));
  let '(kw2, mt, rq) := strip_suffixes kw in
  Some (mkP (p_channel st) (p_channel_req st)
            (p_keywords st ++ [Keyword_init kw2 mt rq (p_channel st) excl])).

(** One line of the inputs file. *)
Definition parse_line (line : pystr) (st : pstate) : option pstate :=
  let l := rstrip (lower line) in
  match l with
  | [] => Some st
  | _ :: _ =>
      if startswith (str "#") l || startswith (str "@") l
      then channel_line l st
      else keyword_line l st
  end.

Fixpoint parse_lines (lines : list pystr) (st : pstate) : option pstate :=
  match lines with
  | [] => Some st
  | line :: rest => st' ← parse_line line st; parse_lines rest st'
  end.

End Model.

(** ** Notions the statements use *)

(** [n] occurs in [h] as a run of consecutive characters. *)
Definition occurs (n h : pystr) : Prop := exists pre post, h = pre ++ n ++ post.

Definition non_blank (w : pystr) : Prop := Forall (fun c => is_space c = false) w.

Definition ends_blank (s : pystr) : bool := starts_blank (rev s).

(** [t] is a whitespace-delimited token of [s]: a non-empty run without
    blanks, bounded on each side by a blank or by an end of [s]. *)
Definition ws_token (t s : pystr) : Prop :=
  t <> [] /\ non_blank t /\
  exists pre post, s = pre ++ t ++ post
                   /\ ends_blank pre = true /\ starts_blank post = true.

(** Does [s] begin with a character that satisfies [f]? *)
Definition begins_with (f : ascii -> bool) (s : pystr) : bool :=
  match s with
  | [] => false
  | c :: _ => f c
  end.

(** [c] is neither of the two suffix characters. *)
Definition plain_char (c : ascii) : bool :=
  negb (ascii_eqb c (ascii_of_nat 45)) && negb (ascii_eqb c (ascii_of_nat 33)).

(** [w] does not end in a suffix character. *)
Definition plain_end (w : pystr) : bool :=
  match rev w with
  | [] => true
  | c :: _ => plain_char c
  end.

(** Some exclude term of [k] occurs in the lower-cased abstract, newlines
    read as blanks, or in the lower-cased title. *)
Definition exclude_occurs (ttl abstract : pystr) (k : Keyword) : Prop :=
  exists n, n ∈ excludes k
            /\ (occurs n (replace_nl (lower abstract)) \/ occurs n (lower ttl)).

(** The set order that hands the elements out as they were first put in;
    it instantiates [set_order] wherever the model is run. *)
Definition first_seen : forall A : Type, list A -> list A := fun _ l => l.

(** Half a unit in the last place of a 53-bit significand, relative to
    the number. *)
Definition ulp_half : Q := 1 # (2 ^ 53).

(** [s] is a plain decimal literal of at most fifteen digits. *)
Definition few_digits (s : pystr) : Prop :=
  match decimal_digits s with
  | Some (ip, fr) => length ip + length fr <= 15
  | None => False
  end.

(** The identifier with the part from the first [v] onward removed. *)
Definition before_first_v (s : pystr) : pystr :=
  take_while (fun c => negb (ascii_eqb c (ascii_of_nat 118))) s.

(** The object [r] is marked as delivered in [h]. *)
Definition posted (h : heap) (r : ref) : Prop :=
  exists p, h !! r = Some p /\ posted_to_slack p = true.

(** [h'] arises from [h] by marking objects as delivered. *)
Definition marks (h h' : heap) : Prop :=
  length h' = length h /\
  forall r p, h !! r = Some p ->
              h' !! r = Some p \/ h' !! r = Some (set_posted true p).


(** What holds between the channels of one filter pass over [papers]: no
    reference was taken twice, what was taken is marked, and what is
    marked among [papers] was taken. *)
Definition taken_inv (papers : list ref) (h : heap) (f : list ref) : Prop :=
  NoDup f
  /\ (forall r, r ∈ f -> posted h r)
  /\ (forall r, r ∈ papers -> posted h r -> r ∈ f).

(** ** Sample rules and entries *)

Definition general : pystr := str "#general".

(** The inputs file of the example in the specification, and the same
    rules with the required one written last. *)
Definition ruleset_required_first : list pystr :=
  [str "#general"; str "black hole!"; str "jet"].
Definition ruleset_required_last : list pystr :=
  [str "#general"; str "jet"; str "black hole!"].

Definition rule_jet : Keyword :=
  mkKeyword (str "jet") (str "any") false (Some general) [].
Definition rule_black_hole : Keyword :=
  mkKeyword (str "black hole") (str "any") true (Some general) [].
Definition rule_black_hole_not_jet : Keyword :=
  mkKeyword (str "black hole") (str "any") true (Some general) [str "jet"].

Definition id_jet : pystr := str "2301.00015v2".
Definition url_jet : pystr := str "http://arxiv.org/abs/2301.00015v2".

Definition entry_jet : Entry :=
  mkEntry url_jet (str "A relativistic jet") (str "We study a jet.")
          [(str "alternate", url_jet)].

Definition paper_jet : Paper :=
  mkPaper id_jet (str "A relativistic jet") url_jet [str "jet"]
          [Some general] false.

Definition rule_nova : Keyword :=
  mkKeyword (str "nova") (str "unique") false (Some general) [].
Definition rule_nova_not_super : Keyword :=
  mkKeyword (str "nova") (str "unique") false (Some general) [str "super"].

Definition hook : pystr := str "https://example.org/hook".

(** ** The rest of the script *)

(** *** Query Builder *)

(** [ArxivCategoryMap], a dict from category to its subcategories, as its
    items in the order they are written. *)
Definition ArxivCategoryMap : list (pystr * list pystr) :=
  [(str "astro-ph", map str ["GA"; "CO"; "EP"; "HE"; "IM"; "SR"]%string);
   (str "cond-mat", map str ["dis-nn"; "mes-hall"; "mtrl-sci"; "other";
                             "quant-gas"; "soft"; "stat-mech"; "str-el";
                             "supr-con"]%string);
   (str "gr-qc", [[]]);
   (str "hep-ex", [[]]);
   (str "hep-lat", [[]]);
   (str "hep-ph", [[]]);
   (str "hep-th", [[]]);
   (str "math-ph", [[]]);
   (str "nlin", map str ["AO"; "CD"; "CG"; "PS"; "SI"]%string);
   (str "nucl-ex", [[]]);
   (str "nucl-th", [[]]);
   (str "physics", map str ["acc-ph"; "ao-ph"; "app-ph"; "atm-clus";
                            "atom-ph"; "bio-ph"; "chem-ph"; "class-ph";
                            "comp-ph"; "data-an"; "ed-ph"; "flu-dyn";
                            "gen-ph"; "geo-ph"; "hist-ph"; "ins-det";
                            "med-ph"; "optics"; "plasm-ph"; "pop-ph";
                            "soc-ph"; "space-ph"]%string);
   (str "quant-ph", [[]])].

(** [m[k]] for a dict given by its items; [None] when [k not in m]. *)
Fixpoint items_get {V} (m : list (pystr * V)) (k : pystr) : option V :=
  match m with
  | [] => None
  | (k', v) :: m' => if str_eqb k' k then Some v else items_get m' k
  end.

(** [list(ArxivCategoryIterator(category))] over a category map [m]. *)
Definition category_iterator (m : list (pystr * list pystr))
    (category : pystr) : list pystr :=
  match items_get m category with
  | None => [category]
  | Some subs =>
      map (fun subcategory =>
             match subcategory with
             | [] => category
             | _ :: _ => category ++ str "." ++ subcategory
             end) subs
  end.

Definition ArxivCategoryIterator (category : pystr) : list pystr :=
  category_iterator ArxivCategoryMap category.

(** The loop of [ArxivQuery.get_cat_query]: [n] is the index [enumerate]
    gives and [len] is [len(self.categories)]. *)
Fixpoint cat_query_loop (len n : nat) (cats : list pystr) (cat_query : pystr)
  : pystr :=
  match cats with
  | [] => cat_query
  | s :: rest =>
      let q := cat_query ++ s in
      cat_query_loop len (S n) rest
        (if n <? len - 1 then q ++ str "+OR+" else q ++ str "%29")
  end.

(** [ArxivQuery.get_cat_query] for [self.categories = categories]. *)
Definition get_cat_query (categories : list pystr) : pystr :=
  cat_query_loop (length categories) 0 categories (str "%28").

(** *** The e-mail digest *)

(** The loop of [send_email] that composes the body. *)
Fixpoint email_body (papers : list Paper) (current_kw : option pystr)
    (body : pystr) : pystr :=
  match papers with
  | [] => body
  | p :: rest =>
      let same :=
        match current_kw with
        | Some k => str_eqb (kw_str p) k
        | None => false
        end in
      let body1 :=
        if same then body
        else body ++ [LF] ++ str "keywords: " ++ kw_str p ++ [LF; LF] in
      email_body rest (Some (kw_str p)) (body1 ++ Paper_str p ++ [LF])
  end.

(** What [send_email] does with the body. *)
Inductive email_action :=
  | NoMail
  | Mailed (receiver body : pystr)
  | Printed (body : pystr).

(** [send_email(papers, mail)] *)
Definition send_email (papers : list Paper) (mail : option pystr)
  : email_action :=
  let body := email_body papers None [] in
  if length papers =? 0 then NoMail
  else match mail with
       | Some receiver => Mailed receiver body
       | None => Printed body
       end.

(** The header [send_email] writes before a run of papers. *)
Definition kw_header (k : pystr) : pystr :=
  [LF] ++ str "keywords: " ++ k ++ [LF; LF].

(** The lines [send_email] writes for the papers themselves. *)
Definition paper_lines (papers : list Paper) : pystr :=
  flat_map (fun p => Paper_str p ++ [LF]) papers.

(** *** More sample data *)

Definition paper_jet_nova : Paper :=
  mkPaper (str "2301.00016v1") (str "Jets from a nova") (str "http://arxiv.org/abs/2301.00016v1")
          [str "jet"; str "nova"] [Some general] false.

(** *** Notions for the further statements *)

(** The Paper [p] is what the rules [ks] make of the entry [e]: it carries
    the entry's identifier and title, at least one keyword and none twice,
    every keyword is the text and every channel the channel of a rule of
    [ks] that matched the entry and was not excluded. *)
Definition made_from (ks : list Keyword) (e : Entry) (p : Paper) : Prop :=
  let hit k :=
    k ∈ ks /\ get_match (entry_title e) (e_summary e) k = (true, false) in
  arxiv_id p = entry_id e
  /\ title p = replace_char (ascii_of_nat 39) [] (entry_title e)
  /\ keywords p <> [] /\ NoDup (keywords p) /\ NoDup (channels p)
  /\ (forall kw, kw ∈ keywords p -> exists k, hit k /\ name k = kw)
  /\ (forall c, c ∈ channels p -> exists k, hit k /\ channel k = c)
  /\ posted_to_slack p = false.


(** The identifiers [search_arxiv] chooses the new marker from: its
    starting value and the first identifier of every feed. *)
Definition marker_candidates (cat_last_id : pystr) (feeds : list (list Entry))
  : list pystr :=
  cat_last_id :: omap (fun es => head (map entry_id es)) feeds.

(** The channels a mapping has a requirement for. *)
Definition dict_keys (d : dict) : list pystr := map fst d.

(** What the parser keeps true of its state: no channel is listed twice in
    the mapping, and the current channel and the channel of every rule
    read so far, where there is one, are listed. *)
Definition parser_inv (st : pstate) : Prop :=
  NoDup (dict_keys (p_channel_req st))
  /\ (forall c, p_channel st = Some c -> c ∈ dict_keys (p_channel_req st))
  /\ (forall k c, k ∈ p_keywords st -> channel k = Some c ->
      c ∈ dict_keys (p_channel_req st)).

(** [s] has no upper-case letter. *)
Definition is_lower (s : pystr) : Prop := Forall (fun c => lower_char c = c) s.

(** What the parser keeps true of the case of its state: the text and the
    exclude terms of every rule and the channels of the mapping have no
    upper-case letter. *)
Definition parser_lower (st : pstate) : Prop :=
  (forall k, k ∈ p_keywords st ->
     is_lower (name k) /\ forall x, x ∈ excludes k -> is_lower x)
  /\ (forall c, c ∈ dict_keys (p_channel_req st) -> is_lower c).

(** [w] can stand as the text of a rule on a line of the inputs file: it
    is not empty, has no blank at either end, does not open a channel
    line, has no colon, and neither of its last two characters is a suffix
    character. *)
Definition keyword_text (w : pystr) : bool :=
  negb (starts_blank w) && negb (ends_blank w)
  && negb (startswith (str "#") w) && negb (startswith (str "@") w)
  && negb (isin (str ":") w)
  && forallb plain_char (last_two w).

(** The rule [k] with its matching mode set to [mt]. *)
Definition with_matching (mt : pystr) (k : Keyword) : Keyword :=
  mkKeyword (name k) mt (required k) (channel k) (excludes k).

(** ** Facts about strings *)

Lemma ascii_eqb_true (a b : ascii) : ascii_eqb a b = true <-> a = b.
Proof. apply Ascii.eqb_eq. Qed.

Lemma ascii_eqb_refl (a : ascii) : ascii_eqb a a = true.
Proof. by apply ascii_eqb_true. Qed.

Lemma str_eqb_true (a b : pystr) : str_eqb a b = true <-> a = b.
Proof.
  revert b. induction a as [|x a IH]; intros [|y b]; simpl; try done.
  rewrite andb_true_iff, ascii_eqb_true, IH. split.
  - by intros [-> ->].
  - intros E. by injection E.
Qed.

Lemma str_eqb_refl (a : pystr) : str_eqb a a = true.
Proof. by apply str_eqb_true. Qed.

Lemma str_mem_true (x : pystr) (l : list pystr) : str_mem x l = true <-> x ∈ l.
Proof.
  unfold str_mem. rewrite existsb_exists. split.
  - intros (y & Hy & E). apply str_eqb_true in E. subst. by apply list_elem_of_In.
  - intros H. exists x. split; [by apply list_elem_of_In | apply str_eqb_refl].
Qed.


Lemma startswith_true (n h : pystr) :
  startswith n h = true <-> exists post, h = n ++ post.
Proof.
  revert h. induction n as [|x n IH]; intros h; simpl.
  - split; [eauto | done].
  - destruct h as [|y h].
    + split; [done | by intros [? ?]].
    + rewrite andb_true_iff, ascii_eqb_true, IH. split.
      * intros (-> & post & ->). eauto.
      * intros (post & E). injection E as -> ->. eauto.
Qed.

Lemma isin_true (n h : pystr) : isin n h = true <-> occurs n h.
Proof.
  unfold occurs. induction h as [|y h IH].
  - simpl. rewrite orb_false_r, startswith_true. split.
    + intros (post & E). exists [], post. done.
    + intros (pre & post & E). destruct pre; [eauto | done].
  - cbn [isin]. rewrite orb_true_iff, startswith_true, IH. split.
    + intros [(post & E) | (pre & post & E)].
      * exists [], post. done.
      * exists (y :: pre), post. by rewrite E.
    + intros (pre & post & E). destruct pre as [|z pre].
      * left. eauto.
      * right. injection E as -> ->. eauto.
Qed.

Lemma isin_false (n h : pystr) : isin n h = false <-> ~ occurs n h.
Proof. rewrite <- isin_true. by destruct (isin n h). Qed.

(** *** Words *)


Lemma starts_blank_app (a b : pystr) :
  a <> [] -> starts_blank (a ++ b) = starts_blank a.
Proof. by destruct a. Qed.

Lemma ends_blank_app (a b : pystr) :
  b <> [] -> ends_blank (a ++ b) = ends_blank b.
Proof.
  intros Hb. unfold ends_blank. rewrite rev_app_distr.
  apply starts_blank_app. intros E. apply Hb.
  by rewrite <- (rev_involutive b), E.
Qed.

Lemma split_ws_blank (c : ascii) (s : pystr) :
  is_space c = true -> split_ws (c :: s) = split_ws s.
Proof. intros H. simpl. by rewrite H. Qed.

Lemma split_ws_word (w post : pystr) :
  w <> [] -> non_blank w -> starts_blank post = true ->
  split_ws (w ++ post) = w :: split_ws post.
Proof.
  induction w as [|c w IH]; [done|]. intros _ Hw Hp.
  apply Forall_cons in Hw as [Hc Hw]. destruct w as [|c' w].
  - simpl. rewrite Hc, Hp. by destruct (split_ws post).
  - change ((c :: c' :: w) ++ post) with (c :: ((c' :: w) ++ post)).
    cbn [split_ws]. rewrite Hc, IH by done.
    rewrite starts_blank_app by done. simpl.
    apply Forall_cons in Hw as [-> _]. done.
Qed.

Lemma word_split (s : pystr) :
  starts_blank s = false ->
  exists w post, s = w ++ post /\ w <> [] /\ non_blank w
                 /\ starts_blank post = true.
Proof.
  induction s as [|c s IH]; [done|]. simpl. intros Hc.
  destruct (starts_blank s) eqn:Hs.
  - exists [c], s. repeat split; try done. by apply Forall_singleton.
  - destruct (IH eq_refl) as (w & post & -> & _ & Hw & Hp).
    exists (c :: w), post. repeat split; try done. by apply Forall_cons.
Qed.

Lemma split_ws_sound (t s : pystr) : t ∈ split_ws s -> ws_token t s.
Proof.
  remember (length s) as n eqn:Hn. revert s Hn t.
  induction n as [n IH] using lt_wf_ind. intros s -> t Ht.
  destruct s as [|c s]; [by apply elem_of_nil in Ht|].
  destruct (is_space c) eqn:Hc.
  - rewrite split_ws_blank in Ht by done.
    destruct (IH (length s) ltac:(simpl; lia) s eq_refl t Ht)
      as (Hne & Hnb & pre & post & -> & Hpre & Hpost).
    repeat split; try done. exists (c :: pre), post. repeat split; try done.
    destruct pre as [|x pre]; [done|].
    change (c :: x :: pre) with ([c] ++ (x :: pre)).
    by rewrite ends_blank_app.
  - destruct (word_split (c :: s) Hc) as (w & post0 & E & Hw & Hnb & Hp0).
    rewrite E, split_ws_word in Ht by done.
    apply elem_of_cons in Ht as [-> | Ht].
    + repeat split; try done. exists [], post0. by rewrite E.
    + assert (length post0 < length (c :: s)) as Hlt.
      { rewrite E, length_app. destruct w; [done | simpl; lia]. }
      destruct (IH _ Hlt post0 eq_refl t Ht)
        as (Hne & Hnbt & pre & post & -> & Hpre & Hpost).
      repeat split; try done. exists (w ++ pre), post.
      rewrite E, <- app_assoc. repeat split; try done.
      destruct pre as [|x pre].
      * destruct t as [|y t]; [done|]. simpl in Hp0.
        apply Forall_cons in Hnbt as [Hy _]. congruence.
      * by rewrite ends_blank_app.
Qed.

Lemma split_ws_complete (t s : pystr) : ws_token t s -> t ∈ split_ws s.
Proof.
  intros (Hne & Hnb & pre & post & -> & Hpre & Hpost).
  remember (length pre) as n eqn:Hn. revert pre Hn Hpre.
  induction n as [n IH] using lt_wf_ind. intros pre -> Hpre.
  destruct pre as [|c pre].
  - simpl. rewrite split_ws_word by done. apply elem_of_cons. by left.
  - destruct (is_space c) eqn:Hc.
    + change ((c :: pre) ++ t ++ post) with (c :: (pre ++ t ++ post)).
      rewrite split_ws_blank by done.
      apply (IH (length pre)); [simpl; lia | done |].
      destruct pre as [|x pre]; [done|].
      change (c :: x :: pre) with ([c] ++ (x :: pre)) in Hpre.
      by rewrite ends_blank_app in Hpre.
    + destruct (word_split (c :: pre) Hc) as (w & pre2 & E & Hw & Hnbw & Hp2).
      destruct pre2 as [|c2 pre2].
      { rewrite app_nil_r in E. subst w. exfalso.
        unfold ends_blank in Hpre.
        assert (non_blank (rev (c :: pre))) as Hr by by apply Forall_rev.
        destruct (rev (c :: pre)) as [|y r] eqn:Er.
        - apply (f_equal (@rev _)) in Er. by rewrite rev_involutive in Er.
        - apply Forall_cons in Hr as [Hy _]. simpl in Hpre. congruence. }
      rewrite E, <- app_assoc, split_ws_word by done.
      apply elem_of_cons. right.
      apply (IH (length (c2 :: pre2))); try done.
      * rewrite E, length_app. destruct w; [done | simpl; lia].
      * rewrite E in Hpre. by rewrite ends_blank_app in Hpre.
Qed.

(** The words [s.split()] returns are exactly the whitespace-delimited
    tokens of [s]. *)
Lemma split_ws_tokens (t s : pystr) : t ∈ split_ws s <-> ws_token t s.
Proof. split; [apply split_ws_sound | apply split_ws_complete]. Qed.

Lemma starts_blank_replace_nl (s : pystr) :
  starts_blank (replace_nl s) = starts_blank s.
Proof.
  destruct s as [|c s]; [done|].
  unfold replace_nl, replace_char. simpl.
  destruct (ascii_eqb c LF) eqn:E; [|done].
  apply ascii_eqb_true in E. by subst c.
Qed.

(** Reading newlines as blanks does not change the words of a text. *)
Lemma split_ws_replace_nl (s : pystr) : split_ws (replace_nl s) = split_ws s.
Proof.
  induction s as [|c s IH]; [done|].
  change (replace_nl (c :: s))
    with ((if ascii_eqb c LF then [SP] else [c]) ++ replace_nl s).
  destruct (ascii_eqb c LF) eqn:E.
  - apply ascii_eqb_true in E. subst c.
    change ([SP] ++ replace_nl s) with (SP :: replace_nl s).
    by rewrite !split_ws_blank.
  - change ([c] ++ replace_nl s) with (c :: replace_nl s).
    cbn [split_ws]. by rewrite IH, starts_blank_replace_nl.
Qed.

(** *** Stripping *)

Lemma take_drop_while (f : ascii -> bool) (s : pystr) :
  take_while f s ++ drop_while f s = s.
Proof.
  induction s as [|c s IH]; simpl; [done|].
  destruct (f c); simpl; [by rewrite IH | done].
Qed.

Lemma take_while_all (f : ascii -> bool) (s : pystr) :
  Forall (fun c => f c = true) (take_while f s).
Proof.
  induction s as [|c s IH]; simpl; [constructor|].
  destruct (f c) eqn:E; by constructor.
Qed.

Lemma drop_while_begins (f : ascii -> bool) (s : pystr) :
  begins_with f (drop_while f s) = false.
Proof.
  induction s as [|c s IH]; simpl; [done|].
  destruct (f c) eqn:E; [done | by simpl].
Qed.

(** [strip_by f s] is [s] without its longest prefix and its longest
    suffix of characters that satisfy [f]. *)
Lemma strip_by_spec (f : ascii -> bool) (s : pystr) :
  exists pre post,
    s = pre ++ strip_by f s ++ post
    /\ Forall (fun c => f c = true) pre
    /\ Forall (fun c => f c = true) post
    /\ begins_with f (strip_by f s) = false
    /\ begins_with f (rev (strip_by f s)) = false.
Proof.
  unfold strip_by, rstrip_by, lstrip_by.
  set (m := drop_while f s).
  exists (take_while f s), (rev (take_while f (rev m))).
  assert (m = rev (drop_while f (rev m)) ++ rev (take_while f (rev m))) as Hm.
  { rewrite <- rev_app_distr, take_drop_while. by rewrite rev_involutive. }
  split; [|split; [|split; [|split]]].
  - rewrite <- Hm. symmetry. apply take_drop_while.
  - apply take_while_all.
  - apply Forall_rev, take_while_all.
  - pose proof (drop_while_begins f s) as Hb. fold m in Hb.
    destruct (rev (drop_while f (rev m))) as [|c r] eqn:E; [done|].
    rewrite Hm in Hb. done.
  - rewrite rev_involutive. apply drop_while_begins.
Qed.

(** ** The Feed Matcher *)

Lemma first_seen_perm A (l : list A) : first_seen A l ≡ₚ l.
Proof. done. Qed.

Section Matcher.

Variable set_order : forall A : Type, list A -> list A.
Hypothesis set_order_perm : forall A (l : list A), set_order A l ≡ₚ l.

Lemma py_set_nil A (eqb : A -> A -> bool) : py_set set_order eqb [] = [].
Proof using set_order_perm. unfold py_set. simpl. by apply Permutation_nil_r. Qed.

Lemma py_set_singleton A (eqb : A -> A -> bool) (x : A) :
  py_set set_order eqb [x] = [x].
Proof using set_order_perm.
  unfold py_set. simpl. by apply Permutation_singleton_r.
Qed.

Lemma excluded_true (ttl abstract : pystr) (k : Keyword) :
  existsb (fun n => isin n (replace_nl (lower abstract)) || isin n (lower ttl))
          (excludes k) = true
  <-> exclude_occurs ttl abstract k.
Proof.
  unfold exclude_occurs. rewrite existsb_exists. split.
  - intros (n & Hn & H). exists n. split; [by apply list_elem_of_In|].
    apply orb_true_iff in H. by rewrite <- !isin_true.
  - intros (n & Hn & H). exists n. split; [by apply list_elem_of_In|].
    apply orb_true_iff. by rewrite !isin_true.
Qed.

Lemma get_match_excluded (ttl abstract : pystr) (k : Keyword) :
  exclude_occurs ttl abstract k -> get_match ttl abstract k = (true, true).
Proof.
  intros H. apply excluded_true in H. unfold get_match. by rewrite H.
Qed.

Lemma get_match_not_excluded (ttl abstract : pystr) (k : Keyword) :
  ~ exclude_occurs ttl abstract k -> snd (get_match ttl abstract k) = false.
Proof.
  intros H. unfold get_match.
  destruct (existsb _ (excludes k)) eqn:E.
  - by apply excluded_true in E.
  - repeat case_match; done.
Qed.

(** A rule whose result is [(True, True)] leaves the loop as it found it. *)
Lemma match_keywords_pass (ttl abstract : pystr) (ks1 ks2 : list Keyword)
    (k : Keyword) (acc : list Keyword) :
  get_match ttl abstract k = (true, true) ->
  match_keywords ttl abstract (ks1 ++ k :: ks2) acc
  = match_keywords ttl abstract (ks1 ++ ks2) acc.
Proof.
  intros Hk. revert acc. induction ks1 as [|k1 ks1 IH]; intros acc; simpl.
  - rewrite Hk. by rewrite andb_false_r.
  - destruct (get_match ttl abstract k1) as [m x].
    destruct (required k1 && negb m); [done|].
    destruct (m && negb x); apply IH.
Qed.

(** The loop stops at the first required rule that does not match and
    hands back what the rules before it collected. *)
Lemma match_keywords_break (ttl abstract : pystr) (ks1 ks2 : list Keyword)
    (k : Keyword) (acc : list Keyword) :
  required k = true -> fst (get_match ttl abstract k) = false ->
  fst (match_keywords ttl abstract ks1 acc) = true ->
  match_keywords ttl abstract (ks1 ++ k :: ks2) acc
  = (false, snd (match_keywords ttl abstract ks1 acc)).
Proof.
  intros Hr Hm. revert acc. induction ks1 as [|k1 ks1 IH]; intros acc; simpl.
  - destruct (get_match ttl abstract k) as [m x]. simpl in Hm. subst m.
    by rewrite Hr.
  - destruct (get_match ttl abstract k1) as [m x].
    destruct (required k1 && negb m); [done|].
    destruct (m && negb x); apply IH.
Qed.

End Matcher.

Lemma do_query_one set_order (ks : list Keyword) (e : Entry) (u : pystr)
    (found : list Keyword) (b : bool) :
  (forall A (l : list A), set_order A l ≡ₚ l) ->
  find_url (e_links e) None = Some u ->
  match_keywords (entry_title e) (e_summary e) ks [] = (b, found) ->
  do_query set_order ks None [e]
  = Some (match py_set set_order str_eqb (map name found) with
          | [] => []
          | kws => [Paper_init set_order (entry_id e) (entry_title e) u kws
                              (map channel found)]
          end, Some (entry_id e)).
Proof.
  intros Hperm Hu Hm. unfold do_query, do_entries, do_entry, evaluate_entry.
  simpl. rewrite Hu, Hm. by destruct (py_set _ _ _).
Qed.

(** C1, at the input that breaks it: the required rule [black hole] is
    written after [jet] and does not match the entry, yet the entry yields
    a Paper with the keyword [jet]; the flag [meets_requirements] the loop
    sets is never read. *)
Theorem required_rule_after_a_match_keeps_the_paper set_order :
  (forall A (l : list A), set_order A l ≡ₚ l) ->
  p_keywords <$> parse_lines set_order ruleset_required_last p0
    = Some [rule_jet; rule_black_hole]
  /\ required rule_black_hole = true
  /\ fst (get_match (entry_title entry_jet) (e_summary entry_jet)
                    rule_black_hole) = false
  /\ do_query set_order [rule_jet; rule_black_hole] None [entry_jet]
     = Some ([paper_jet], Some id_jet).
Proof.
  intros Hperm. split; [|split; [done|split; [by vm_compute|]]].
  - unfold ruleset_required_last, parse_lines, parse_line. simpl.
    unfold keyword_line, Keyword_init. simpl.
    by rewrite !py_set_nil.
  - erewrite do_query_one; [| done | by vm_compute | by vm_compute].
    simpl. rewrite py_set_singleton by done.
    unfold Paper_init. simpl. by rewrite py_set_singleton.
Qed.

Lemma required_rule_after_a_match_keeps_the_paper_witness :
  do_query first_seen [rule_jet; rule_black_hole] None [entry_jet]
  = Some ([paper_jet], Some id_jet).
Proof.
  apply (required_rule_after_a_match_keeps_the_paper first_seen).
  intros A l. apply first_seen_perm.
Defined.

(** The example of the specification, with the required rule first: the
    loop stops before [jet] is looked at and no Paper is made. *)
Lemma required_rule_first_drops_the_entry set_order :
  (forall A (l : list A), set_order A l ≡ₚ l) ->
  do_query set_order [rule_black_hole; rule_jet] None [entry_jet]
  = Some ([], Some id_jet).
Proof.
  intros Hperm.
  erewrite do_query_one; [| done | by vm_compute | by vm_compute].
  simpl. by rewrite py_set_nil.
Qed.

(** C6: a rule one of whose exclude terms occurs in the lower-cased
    abstract, newlines read as blanks, or in the lower-cased title is never
    added to the matched rules, whatever its own text: the entry is
    evaluated exactly as if the rule were not in the list, so the rule
    gives the Paper no keyword and no channel. *)
Theorem excluded_rule_contributes_nothing set_order
    (ks1 ks2 : list Keyword) (k : Keyword) (old_id : option pystr)
    (st : qstate) (e : Entry) :
  exclude_occurs (entry_title e) (e_summary e) k ->
  (let '(mtch, excluded) := get_match (entry_title e) (e_summary e) k in
   mtch && negb excluded = false)
  /\ match_keywords (entry_title e) (e_summary e) (ks1 ++ k :: ks2) []
     = match_keywords (entry_title e) (e_summary e) (ks1 ++ ks2) []
  /\ do_entry set_order (ks1 ++ k :: ks2) old_id st e
     = do_entry set_order (ks1 ++ ks2) old_id st e.
Proof.
  intros H. pose proof (get_match_excluded _ _ _ H) as Hk.
  split; [by rewrite Hk|]. split; [by apply match_keywords_pass|].
  unfold do_entry, evaluate_entry. simpl.
  destruct (before_marker old_id (entry_id e)) as [[|]|]; simpl; try done.
  by rewrite match_keywords_pass.
Qed.

Lemma excluded_rule_contributes_nothing_witness :
  do_entry first_seen ([rule_jet] ++ rule_black_hole_not_jet :: []) None q0 entry_jet
  = do_entry first_seen ([rule_jet] ++ []) None q0 entry_jet.
Proof.
  apply (excluded_rule_contributes_nothing first_seen [rule_jet] []
           rule_black_hole_not_jet None q0 entry_jet).
  exists (str "jet"). split.
  - apply list_elem_of_singleton. reflexivity.
  - left. apply isin_true. vm_compute. reflexivity.
Defined.

(** C10: a required rule one of whose exclude terms occurs in the entry is
    reported as matched and excluded, so the required test lets the loop go
    on to the remaining rules, and the rule adds nothing to the matched
    rules; the entry [entry_jet] yields a Paper under the required rule
    [black hole NOT: jet] and none under the same rule without the
    exclude term. *)
Theorem excluded_required_rule_counts_as_matched set_order
    (ttl abstract : pystr) (k : Keyword) (ks acc : list Keyword) :
  (forall A (l : list A), set_order A l ≡ₚ l) ->
  required k = true ->
  exclude_occurs ttl abstract k ->
  get_match ttl abstract k = (true, true)
  /\ required k && negb (fst (get_match ttl abstract k)) = false
  /\ match_keywords ttl abstract (k :: ks) acc
     = match_keywords ttl abstract ks acc
  /\ do_query set_order [rule_black_hole_not_jet; rule_jet] None [entry_jet]
     = Some ([paper_jet], Some id_jet)
  /\ do_query set_order [rule_black_hole; rule_jet] None [entry_jet]
     = Some ([], Some id_jet).
Proof.
  intros Hperm Hr H. pose proof (get_match_excluded _ _ _ H) as Hk.
  split; [done|]. split; [by rewrite Hk, Hr|].
  split; [by apply (match_keywords_pass _ _ [])|].
  split; [|by apply required_rule_first_drops_the_entry].
  erewrite do_query_one; [| done | by vm_compute | by vm_compute].
  simpl. rewrite py_set_singleton by done.
  unfold Paper_init. simpl. by rewrite py_set_singleton.
Qed.

Lemma excluded_required_rule_counts_as_matched_witness :
  get_match (entry_title entry_jet) (e_summary entry_jet)
            rule_black_hole_not_jet = (true, true)
  /\ do_query first_seen [rule_black_hole_not_jet; rule_jet] None [entry_jet]
     = Some ([paper_jet], Some id_jet).
Proof.
  pose proof (excluded_required_rule_counts_as_matched first_seen
                (entry_title entry_jet) (e_summary entry_jet)
                rule_black_hole_not_jet [rule_jet] []) as H.
  destruct H as (H1 & _ & _ & H2 & _).
  - intros A l. apply first_seen_perm.
  - reflexivity.
  - exists (str "jet"). split.
    + apply list_elem_of_singleton. reflexivity.
    + left. apply isin_true. vm_compute. reflexivity.
  - split; assumption.
Defined.

Lemma unique_tokens_mem (ttl abstract nm : pystr) :
  str_mem nm (map (fun l => strip_chars PUNCT (lower l)) (split_ws abstract)
              ++ map (fun l => strip_chars PUNCT (lower l)) (split_ws ttl)) = true
  <-> exists t, (ws_token t abstract \/ ws_token t ttl)
                /\ nm = strip_chars PUNCT (lower t).
Proof.
  rewrite str_mem_true, elem_of_app, !list_elem_of_In, !in_map_iff. split.
  - intros [(t & E & Ht) | (t & E & Ht)]; exists t;
      apply list_elem_of_In, split_ws_tokens in Ht; eauto.
  - intros (t & [Ht | Ht] & E); [left | right]; exists t;
      apply split_ws_tokens, list_elem_of_In in Ht; eauto.
Qed.

(** C5, as the code has it: for a rule in unique mode none of whose
    exclude terms occurs in the entry, [get_match] reports a match exactly
    when the rule text equals a whitespace-delimited token of the abstract
    or the title, lower-cased and stripped of the surrounding characters
    double quote, colon, period, comma, exclamation and question mark; so
    [nova] does not match [supernova explosion] and matches
    [a nova was observed]. *)
Theorem unique_rule_matches_iff_token (ttl abstract : pystr) (k : Keyword) :
  matching k = str "unique" ->
  ~ exclude_occurs ttl abstract k ->
  (fst (get_match ttl abstract k) = true
   <-> exists t, (ws_token t abstract \/ ws_token t ttl)
                 /\ name k = strip_chars PUNCT (lower t))
  /\ snd (get_match ttl abstract k) = false
  /\ get_match [] (str "supernova explosion") rule_nova = (false, false)
  /\ get_match [] (str "a nova was observed") rule_nova = (true, false).
Proof.
  intros Hm Hx. split; [|split; [by apply get_match_not_excluded|done]].
  rewrite <- unique_tokens_mem. unfold get_match.
  destruct (existsb _ (excludes k)) eqn:E.
  { by apply excluded_true in E. }
  rewrite Hm. change (str_eqb (str "unique") (str "any")) with false.
  change (str_eqb (str "unique") (str "unique")) with true. cbv iota.
  by destruct (str_mem _ _).
Qed.

Lemma unique_rule_matches_iff_token_witness :
  fst (get_match [] (str "a nova was observed") rule_nova) = true
  <-> exists t, (ws_token t (str "a nova was observed") \/ ws_token t [])
                /\ name rule_nova = strip_chars PUNCT (lower t).
Proof.
  apply (unique_rule_matches_iff_token [] (str "a nova was observed") rule_nova).
  - reflexivity.
  - intros (n & Hn & _). vm_compute in Hn. inversion Hn.
Defined.

(** C5 as it is worded fails for a rule whose exclude term occurs: the
    rule [nova NOT: super] in unique mode is reported as matched on
    [supernova explosion], where no token is [nova], and adds nothing on
    [a nova, not a supernova], where a token is. *)
Lemma unique_rule_excluded_breaks_iff :
  ~ (fst (get_match [] (str "supernova explosion") rule_nova_not_super) = true
     <-> exists t, (ws_token t (str "supernova explosion") \/ ws_token t [])
                   /\ name rule_nova_not_super = strip_chars PUNCT (lower t))
  /\ ~ ((let '(mtch, excluded) :=
           get_match [] (str "a nova, not a supernova") rule_nova_not_super in
         mtch && negb excluded = true)
        <-> exists t, (ws_token t (str "a nova, not a supernova") \/ ws_token t [])
                      /\ name rule_nova_not_super = strip_chars PUNCT (lower t)).
Proof.
  split.
  - intros [H _]. destruct (H eq_refl) as (t & Ht & E).
    rewrite <- !split_ws_tokens in Ht. vm_compute in Ht.
    destruct Ht as [Ht | Ht]; [|by apply elem_of_nil in Ht].
    repeat (apply elem_of_cons in Ht as [-> | Ht]; [by vm_compute in E|]).
    by apply elem_of_nil in Ht.
  - intros [_ H]. enough (false = true) by done. apply H.
    exists (str "nova,"). split; [|by vm_compute].
    left. apply split_ws_tokens. vm_compute.
    apply elem_of_cons. right. apply elem_of_cons. by left.
Qed.

(** ** The resume marker *)

Lemma Qltb_true (a b : Q) : Qltb a b = true <-> (a < b)%Q.
Proof.
  unfold Qltb. rewrite negb_true_iff, <- not_true_iff_false, Qle_bool_iff.
  split; [apply Qnot_le_lt | apply Qlt_not_le].
Qed.

Lemma split_on_v_head (cur s : pystr) :
  hd [] (split_on_aux (str "v") 0 cur s) = rev cur ++ before_first_v s.
Proof.
  revert cur. induction s as [|c s IH]; intros cur.
  - simpl. by rewrite app_nil_r.
  - change (split_on_aux (str "v") 0 cur (c :: s))
      with (if startswith (str "v") (c :: s)
            then rev cur :: split_on_aux (str "v") (length (str "v") - 1) [] s
            else split_on_aux (str "v") 0 (c :: cur) s).
    assert (startswith (str "v") (c :: s) = ascii_eqb (ascii_of_nat 118) c)
      as -> by apply andb_true_r.
    unfold before_first_v. cbn [take_while]. fold (before_first_v s).
    destruct (ascii_eqb (ascii_of_nat 118) c) eqn:E.
    + apply ascii_eqb_true in E. subst c. simpl. by rewrite app_nil_r.
    + assert (ascii_eqb c (ascii_of_nat 118) = false) as ->.
      { apply not_true_iff_false. intros H. apply ascii_eqb_true in H.
        subst c. by rewrite ascii_eqb_refl in E. }
      simpl. rewrite IH. simpl. by rewrite <- app_assoc.
Qed.

(** [s.split("v")[0]] is [s] up to its first [v]. *)
Lemma strip_version_before_first_v (s : pystr) :
  strip_version s = before_first_v s.
Proof. unfold strip_version, split_on. by rewrite split_on_v_head. Qed.

(** ** Rounding *)

Lemma round_half_even_near (n d : Z) :
  (0 < d)%Z ->
  (2 * (round_half_even n d * d - n) <= d
   /\ 2 * (n - round_half_even n d * d) <= d)%Z.
Proof.
  intros Hd. unfold round_half_even.
  pose proof (Z.div_mod n d ltac:(lia)) as Hdm.
  pose proof (Z.mod_pos_bound n d Hd) as Hr.
  set (q := (n / d)%Z) in *. set (r := (n mod d)%Z) in *.
  destruct (2 * r <? d)%Z eqn:E1; [apply Z.ltb_lt in E1; nia|].
  apply Z.ltb_ge in E1.
  destruct (d <? 2 * r)%Z eqn:E2; [apply Z.ltb_lt in E2; nia|].
  apply Z.ltb_ge in E2.
  destruct (Z.even q); nia.
Qed.

Lemma dyadic_error (n d e m n' d' : Z) :
  (0 < d)%Z -> (0 <= n)%Z ->
  scaled n d e = (n', d') ->
  (2 * (m * d' - n') <= d')%Z -> (2 * (n' - m * d') <= d')%Z ->
  (2 ^ 52 * d' <= n')%Z ->
  let x := Qmake n (Z.to_pos d) in
  (dyadic m e - x <= ulp_half * x /\ x - dyadic m e <= ulp_half * x)%Q.
Proof.
  intros Hd Hn Hs H1 H2 H3 x. subst x. unfold scaled, dyadic in *.
  destruct (0 <=? e)%Z eqn:Ee.
  - apply Z.leb_le in Ee. injection Hs as <- <-.
    assert (0 < 2 ^ e)%Z as Hp by (apply Z.pow_pos_nonneg; lia).
    set (P := (2 ^ e)%Z) in *.
    unfold Qle, ulp_half, Qminus, Qplus, Qopp, Qmult, inject_Z. simpl.
    rewrite !Z2Pos.id by lia.
    change (Z.pow_pos 2 53) with (2 ^ 53)%Z.
    change (2 ^ 52)%Z with 4503599627370496%Z in *.
    change (2 ^ 53)%Z with 9007199254740992%Z in *.
    split; nia.
  - apply Z.leb_gt in Ee. injection Hs as <- <-.
    assert (0 < 2 ^ (- e))%Z as Hp by (apply Z.pow_pos_nonneg; lia).
    set (P := (2 ^ (- e))%Z) in *.
    unfold Qle, ulp_half, Qminus, Qplus, Qopp, Qmult. simpl.
    rewrite !Pos2Z.inj_mul, !Z2Pos.id by lia.
    change (Z.pow_pos 2 53) with (2 ^ 53)%Z.
    change (2 ^ 52)%Z with 4503599627370496%Z in *.
    change (2 ^ 53)%Z with 9007199254740992%Z in *.
    split; nia.
Qed.

Lemma binary64_frac_error (n d : Z) (v : Q) :
  (0 <= n)%Z -> (0 < d)%Z -> binary64_frac n d = Some v ->
  let x := Qmake n (Z.to_pos d) in
  (v - x <= ulp_half * x /\ x - v <= ulp_half * x)%Q.
Proof.
  intros Hn Hd. unfold binary64_frac.
  destruct (n =? 0)%Z eqn:E0.
  - apply Z.eqb_eq in E0. subst n. intros [= <-].
    unfold Qle, ulp_half, Qminus, Qplus, Qopp, Qmult. simpl. split; lia.
  - set (e0 := (Z.log2 n - Z.log2 d - 52)%Z).
    set (e := if in_binade n d e0 then e0 else (e0 - 1)%Z).
    destruct ((0 <? n)%Z && in_binade n d e && (-1074 <=? e)%Z
              && (e <=? 970)%Z) eqn:Ec; [|done].
    apply andb_true_iff in Ec as [Ec _]. apply andb_true_iff in Ec as [Ec _].
    apply andb_true_iff in Ec as [_ Hb].
    unfold in_binade in Hb.
    destruct (scaled n d e) as [n' d'] eqn:Es.
    apply andb_true_iff in Hb as [Hlo _]. apply Z.leb_le in Hlo.
    intros [= <-].
    assert (0 < d')%Z as Hd'.
    { unfold scaled in Es. destruct (0 <=? e)%Z eqn:Ee; injection Es as <- <-.
      - apply Z.leb_le in Ee.
        assert (0 < 2 ^ e)%Z by (apply Z.pow_pos_nonneg; lia). lia.
      - lia. }
    destruct (round_half_even_near n' d' Hd') as [H1 H2].
    exact (dyadic_error n d e (round_half_even n' d') n' d' Hd Hn Es H1 H2 Hlo).
Qed.

(** A binary64 number differs from the number it rounds by at most the
    fraction [2 ^ -53] of it. *)
Lemma binary64_error (x v : Q) :
  (0 <= x)%Q -> binary64 x = Some v ->
  (v - x <= ulp_half * x /\ x - v <= ulp_half * x)%Q.
Proof.
  intros Hx Hv. unfold binary64 in Hv.
  pose proof (Qred_correct x) as Hred.
  destruct (Qred x) as [n d] eqn:Er. cbn [Qnum Qden] in Hv.
  assert (0 <= n)%Z as Hn.
  { rewrite <- Hred in Hx. unfold Qle in Hx. simpl in Hx. lia. }
  pose proof (binary64_frac_error n (Z.pos d) v Hn ltac:(lia) Hv) as Herr.
  cbn [Z.to_pos] in Herr. cbv zeta in Herr. rewrite <- Hred. exact Herr.
Qed.

(** Two different multiples of a unit, the smaller below [10 ^ 15] units,
    lie further apart than the fraction [2 ^ -53] of their sum. *)
Lemma multiples_gap (p q : Z) :
  (0 <= p < q)%Z -> (p < 10 ^ 15)%Z -> (p + q < 2 ^ 53 * (q - p))%Z.
Proof.
  change (10 ^ 15)%Z with 1000000000000000%Z.
  change (2 ^ 53)%Z with 9007199254740992%Z. lia.
Qed.

Lemma pow10_spec (k : nat) : Zpos (pow10 k) = (10 ^ Z.of_nat k)%Z.
Proof.
  unfold pow10. rewrite Z2Pos.id; [done|]. apply Z.pow_pos_nonneg; lia.
Qed.

(** Decimals of at most fifteen digits keep the gap. *)
Lemma decimal_gap (n1 n2 : Z) (k1 k2 : nat) :
  (0 <= n1 < 10 ^ 15)%Z -> (0 <= n2 < 10 ^ 15)%Z ->
  let x := Qmake n1 (pow10 k1) in
  let y := Qmake n2 (pow10 k2) in
  (x < y)%Q -> (ulp_half * (x + y) < y - x)%Q.
Proof.
  intros H1 H2 x y Hxy. subst x y.
  unfold Qlt, ulp_half, Qminus, Qplus, Qopp, Qmult in *. simpl in *.
  rewrite !Pos2Z.inj_mul, !pow10_spec in *.
  change (Z.pow_pos 2 53) with (2 ^ 53)%Z.
  set (c1 := (10 ^ Z.of_nat k1)%Z) in *. set (c2 := (10 ^ Z.of_nat k2)%Z) in *.
  assert (0 < c1)%Z as Hc1 by (apply Z.pow_pos_nonneg; lia).
  assert (0 < c2)%Z as Hc2 by (apply Z.pow_pos_nonneg; lia).
  assert (n1 * c2 + n2 * c1 < 2 ^ 53 * (n2 * c1 - n1 * c2))%Z as Hgap.
  { destruct (decide (k1 <= k2)) as [Hk | Hk].
    - assert (c2 = 10 ^ Z.of_nat (k2 - k1) * c1)%Z as ->.
      { unfold c1, c2. rewrite <- Z.pow_add_r by lia. f_equal. lia. }
      set (t := (10 ^ Z.of_nat (k2 - k1))%Z) in *.
      assert (0 < t)%Z by (apply Z.pow_pos_nonneg; lia).
      assert (0 <= n1 * t < n2)%Z as Hpq by nia.
      pose proof (multiples_gap (n1 * t) n2 Hpq ltac:(lia)) as Hg.
      nia.
    - assert (c1 = 10 ^ Z.of_nat (k1 - k2) * c2)%Z as ->.
      { unfold c1, c2. rewrite <- Z.pow_add_r by lia. f_equal. lia. }
      set (t := (10 ^ Z.of_nat (k1 - k2))%Z) in *.
      assert (0 < t)%Z by (apply Z.pow_pos_nonneg; lia).
      assert (0 <= n1 < n2 * t)%Z as Hpq by nia.
      pose proof (multiples_gap n1 (n2 * t) Hpq ltac:(lia)) as Hg.
      nia. }
  assert (0 < c1 * c2)%Z as HD by lia.
  apply (Z.mul_lt_mono_pos_r (c1 * c2)) in Hgap; [|done].
  change (Z.pos (2 ^ 53)) with (2 ^ 53)%Z.
  eapply Z.le_lt_trans; [|eapply Z.lt_le_trans; [exact Hgap|]];
    apply Z.eq_le_incl; ring.
Qed.

Lemma binary64_Qeq (x y : Q) : (x == y)%Q -> binary64 x = binary64 y.
Proof. intros H. unfold binary64. by rewrite (Qred_complete x y H). Qed.

(** On decimals of at most fifteen digits rounding to binary64 keeps the
    order. *)
Lemma binary64_order (n1 n2 : Z) (k1 k2 : nat) (v1 v2 : Q) :
  (0 <= n1 < 10 ^ 15)%Z -> (0 <= n2 < 10 ^ 15)%Z ->
  binary64 (Qmake n1 (pow10 k1)) = Some v1 ->
  binary64 (Qmake n2 (pow10 k2)) = Some v2 ->
  (v1 < v2)%Q <-> (Qmake n1 (pow10 k1) < Qmake n2 (pow10 k2))%Q.
Proof.
  intros H1 H2 E1 E2.
  set (x := Qmake n1 (pow10 k1)) in *. set (y := Qmake n2 (pow10 k2)) in *.
  assert (0 <= x)%Q as Hx by (unfold Qle; simpl; lia).
  assert (0 <= y)%Q as Hy by (unfold Qle; simpl; lia).
  destruct (binary64_error x v1 Hx E1) as [A1 B1].
  destruct (binary64_error y v2 Hy E2) as [A2 B2].
  destruct (Q_dec x y) as [[Hlt | Hgt] | Heq].
  - pose proof (decimal_gap n1 n2 k1 k2 H1 H2 Hlt) as Hg. fold x y in Hg.
    split; [done|]. intros _. lra.
  - pose proof (decimal_gap n2 n1 k2 k1 H2 H1 Hgt) as Hg. fold x y in Hg.
    split; intros H; exfalso; lra.
  - rewrite (binary64_Qeq x y Heq) in E1. assert (v1 = v2) as -> by congruence.
    split; intros H; exfalso; lra.
Qed.

Lemma binary64_frac_total (n d : Z) :
  (0 <= n < 2 ^ 50)%Z -> (0 < d < 2 ^ 50)%Z ->
  exists v, binary64_frac n d = Some v.
Proof.
  intros Hn Hd. unfold binary64_frac.
  destruct (n =? 0)%Z eqn:E0; [eauto|].
  apply Z.eqb_neq in E0. assert (0 < n)%Z as Hn0 by lia.
  pose proof (Z.log2_spec n Hn0) as Ha.
  pose proof (Z.log2_spec d ltac:(lia)) as Hb.
  pose proof (Z.log2_nonneg n) as Ha0.
  pose proof (Z.log2_nonneg d) as Hb0.
  assert (Z.log2 n < 50)%Z as Ha1 by (apply Z.log2_lt_pow2; lia).
  assert (Z.log2 d < 50)%Z as Hb1 by (apply Z.log2_lt_pow2; lia).
  set (a := Z.log2 n) in *. set (b := Z.log2 d) in *.
  set (e0 := (a - b - 52)%Z).
  assert (2 ^ (- e0) * 2 ^ a = 2 ^ 52 * 2 ^ b)%Z as Hs.
  { rewrite <- !Z.pow_add_r by lia. f_equal. lia. }
  assert (2 ^ (- (e0 - 1)) = 2 * 2 ^ (- e0))%Z as Hs'.
  { replace (- (e0 - 1))%Z with (Z.succ (- e0)) by lia.
    apply Z.pow_succ_r. lia. }
  rewrite !Z.pow_succ_r in Ha, Hb by lia.
  assert (0 < 2 ^ a)%Z as HA by (apply Z.pow_pos_nonneg; lia).
  assert (0 < 2 ^ b)%Z as HB by (apply Z.pow_pos_nonneg; lia).
  assert (0 < 2 ^ (- e0))%Z as HS by (apply Z.pow_pos_nonneg; lia).
  assert (in_binade n d e0 = (2 ^ 52 * d <=? n * 2 ^ (- e0))%Z) as Hin0.
  { unfold in_binade, scaled.
    destruct (0 <=? e0)%Z eqn:Ee; [apply Z.leb_le in Ee; lia|].
    assert (n * 2 ^ (- e0) < 2 ^ 53 * d)%Z as Hu.
    { change (2 ^ 53)%Z with (2 * 2 ^ 52)%Z.
      set (A := (2 ^ a)%Z) in *. set (B := (2 ^ b)%Z) in *.
      set (S := (2 ^ (- e0))%Z) in *. set (T := (2 ^ 52)%Z) in *.
      assert (0 < T)%Z by done. nia. }
    apply Z.ltb_lt in Hu. rewrite Hu. apply andb_true_r. }
  set (e := if in_binade n d e0 then e0 else (e0 - 1)%Z).
  assert (in_binade n d e = true) as Hin.
  { unfold e. rewrite Hin0.
    destruct (2 ^ 52 * d <=? n * 2 ^ (- e0))%Z eqn:E; [by rewrite Hin0|].
    apply Z.leb_gt in E.
    unfold in_binade, scaled.
    destruct (0 <=? e0 - 1)%Z eqn:Ee; [apply Z.leb_le in Ee; lia|].
    rewrite Hs'. apply andb_true_iff. split.
    - apply Z.leb_le.
      set (A := (2 ^ a)%Z) in *. set (B := (2 ^ b)%Z) in *.
      set (S := (2 ^ (- e0))%Z) in *. set (T := (2 ^ 52)%Z) in *.
      assert (0 < T)%Z by done. nia.
    - apply Z.ltb_lt. change (2 ^ 53)%Z with (2 * 2 ^ 52)%Z. lia. }
  assert (-1074 <= e <= 970)%Z as He.
  { unfold e. destruct (in_binade n d e0); lia. }
  rewrite Hin. destruct He as [He1 He2].
  apply Z.leb_le in He1, He2. apply Z.ltb_lt in Hn0.
  rewrite Hn0, He1, He2. simpl.
  destruct (scaled n d e). eauto.
Qed.

Lemma Qred_bounds (n : Z) (d : positive) :
  (0 <= n)%Z ->
  (0 <= Qnum (Qred (Qmake n d)) <= n)%Z
  /\ (Zpos (Qden (Qred (Qmake n d))) <= Zpos d)%Z.
Proof.
  intros Hn. unfold Qred.
  pose proof (Z.ggcd_correct_divisors n (Zpos d)) as Hdiv.
  pose proof (Z.ggcd_gcd n (Zpos d)) as Hg.
  destruct (Z.ggcd n (Zpos d)) as [g [aa bb]]. simpl in *.
  destruct Hdiv as [Haa Hbb].
  pose proof (Z.gcd_nonneg n (Zpos d)) as Hg0. rewrite <- Hg in Hg0.
  assert (0 < g)%Z as Hgp.
  { destruct (Z.eq_dec g 0%Z) as [-> | Hne]; lia. }
  assert (0 < bb)%Z as Hbp by nia.
  assert (0 <= aa)%Z as Hap by nia.
  rewrite Z2Pos.id by done. nia.
Qed.

(** Every decimal of at most fifteen digits has a binary64 neighbour. *)
Lemma binary64_total (n : Z) (k : nat) :
  (0 <= n < 10 ^ 15)%Z -> k <= 15 ->
  exists v, binary64 (Qmake n (pow10 k)) = Some v.
Proof.
  intros Hn Hk. unfold binary64.
  destruct (Qred_bounds n (pow10 k) ltac:(lia)) as [Hnum Hden].
  rewrite pow10_spec in Hden.
  assert (10 ^ Z.of_nat k <= 10 ^ 15)%Z as Hp.
  { apply Z.pow_le_mono_r; lia. }
  apply binary64_frac_total.
  - change (10 ^ 15)%Z with 1000000000000000%Z in *.
    change (2 ^ 50)%Z with 1125899906842624%Z. lia.
  - change (10 ^ 15)%Z with 1000000000000000%Z in *.
    change (2 ^ 50)%Z with 1125899906842624%Z. lia.
Qed.

Lemma digits_value_fold (s : pystr) (acc : Z) :
  Forall (fun c => is_digit c = true) s -> (0 <= acc)%Z ->
  (0 <= fold_left (fun acc c => 10 * acc + Z.of_nat (code c - 48)) s acc
   < (acc + 1) * 10 ^ Z.of_nat (length s))%Z.
Proof.
  intros Hs. revert acc. induction Hs as [|c s Hc Hs IH]; intros acc Hacc.
  - simpl. lia.
  - cbn [fold_left length]. 
    unfold is_digit in Hc. apply andb_true_iff in Hc as [H1 H2].
    apply Nat.leb_le in H1, H2.
    specialize (IH (10 * acc + Z.of_nat (code c - 48))%Z ltac:(lia)).
    rewrite Nat2Z.inj_succ, Z.pow_succ_r by lia.
    assert (0 < 10 ^ Z.of_nat (length s))%Z by (apply Z.pow_pos_nonneg; lia).
    nia.
Qed.

Lemma digits_value_bound (s : pystr) :
  Forall (fun c => is_digit c = true) s ->
  (0 <= digits_value s < 10 ^ Z.of_nat (length s))%Z.
Proof.
  intros Hs. pose proof (digits_value_fold s 0 Hs ltac:(lia)) as H.
  unfold digits_value. lia.
Qed.

Lemma decimal_digits_are_digits (s ip fr : pystr) :
  decimal_digits s = Some (ip, fr) ->
  Forall (fun c => is_digit c = true) (ip ++ fr).
Proof.
  unfold decimal_digits. intros H. apply Forall_app.
  destruct (drop_while is_digit s) as [|c r].
  - destruct (1 <=? length (take_while is_digit s)); [|done].
    injection H as <- <-. split; [apply take_while_all | constructor].
  - destruct (ascii_eqb c (ascii_of_nat 46) && forallb is_digit r
              && (1 <=? length (take_while is_digit s) + length r)) eqn:E;
      [|done].
    injection H as <- <-. split; [apply take_while_all|].
    apply andb_true_iff in E as [E _]. apply andb_true_iff in E as [_ E].
    apply Forall_forall. intros x Hx. rewrite forallb_forall in E.
    by apply E, list_elem_of_In.
Qed.

(** On literals of at most fifteen digits [float] succeeds and orders
    them as the numbers they denote. *)
Lemma float_of_few_digits (s1 s2 : pystr) (x y : Q) :
  decimal_of s1 = Some x -> decimal_of s2 = Some y ->
  few_digits s1 -> few_digits s2 ->
  exists v1 v2, float_of s1 = Some v1 /\ float_of s2 = Some v2
                /\ ((v1 < v2)%Q <-> (x < y)%Q).
Proof.
  unfold decimal_of, few_digits, float_of, decimal_of.
  destruct (decimal_digits s1) as [[ip1 fr1]|] eqn:E1; [|done].
  destruct (decimal_digits s2) as [[ip2 fr2]|] eqn:E2; [|done].
  simpl. intros [= <-] [= <-] H1 H2.
  assert (forall ip fr s, decimal_digits s = Some (ip, fr) ->
            length ip + length fr <= 15 ->
            (0 <= digits_value (ip ++ fr) < 10 ^ 15)%Z /\ length fr <= 15)
    as Hb.
  { intros ip fr s E Hl. split; [|lia].
    pose proof (digits_value_bound _ (decimal_digits_are_digits _ _ _ E)) as Hv.
    rewrite length_app in Hv.
    assert (10 ^ Z.of_nat (length ip + length fr) <= 10 ^ 15)%Z.
    { apply Z.pow_le_mono_r; lia. }
    lia. }
  destruct (Hb _ _ _ E1 H1) as [Hn1 Hk1]. destruct (Hb _ _ _ E2 H2) as [Hn2 Hk2].
  destruct (binary64_total _ _ Hn1 Hk1) as [v1 Hv1].
  destruct (binary64_total _ _ Hn2 Hk2) as [v2 Hv2].
  exists v1, v2. split; [done|]. split; [done|].
  by apply binary64_order.
Qed.

(** Beyond fifteen digits two literals that denote different numbers can
    read as the same float. *)
Lemma float_of_long_literals :
  float_of (str "2301.00010") = float_of (str "2301.000100000000000001")
  /\ exists x y, decimal_of (str "2301.00010") = Some x
                 /\ decimal_of (str "2301.000100000000000001") = Some y
                 /\ (x < y)%Q.
Proof.
  split; [by vm_compute|]. eexists _, _. split; [by vm_compute|].
  split; [by vm_compute|]. by vm_compute.
Qed.

(** C7: when the entry id and the prior marker, each cut at its first
    [v], read as the floats [a] and [b], the entry is passed over exactly
    when [a < b]; it is then left before any rule is looked at, whatever
    the rules are, and otherwise goes on to the matching.  For an id and a
    marker of at most fifteen digits [a < b] is the order of the decimal
    numbers they denote.  With the marker 2301.00010 the entry 2301.00005
    is passed over and 2301.00015v2 is not. *)
Theorem resume_marker_skips_smaller_ids set_order (ks : list Keyword)
    (marker : pystr) (st : qstate) (e : Entry) (a b : Q) :
  float_of (before_first_v (entry_id e)) = Some a ->
  float_of (before_first_v marker) = Some b ->
  let st1 := mkQ (results st)
                 (match latest_id st with
                  | None => Some (entry_id e)
                  | l => l
                  end)
                 (cur_url st) in
  (before_marker (Some marker) (entry_id e) = Some true <-> (a < b)%Q)
  /\ ((a < b)%Q -> do_entry set_order ks (Some marker) st e = Some st1)
  /\ (~ (a < b)%Q ->
      do_entry set_order ks (Some marker) st e = evaluate_entry set_order ks st1 e)
  /\ (forall x y,
      decimal_of (before_first_v (entry_id e)) = Some x ->
      decimal_of (before_first_v marker) = Some y ->
      few_digits (before_first_v (entry_id e)) ->
      few_digits (before_first_v marker) ->
      (a < b)%Q <-> (x < y)%Q)
  /\ before_marker (Some (str "2301.00010")) (str "2301.00005") = Some true
  /\ before_marker (Some (str "2301.00010")) (str "2301.00015v2") = Some false.
Proof.
  intros Ha Hb st1.
  assert (before_marker (Some marker) (entry_id e) = Some (Qltb a b)) as Hm.
  { unfold before_marker. rewrite !strip_version_before_first_v, Ha, Hb. done. }
  split; [|split; [|split; [|split; [|split; by vm_compute]]]].
  - rewrite Hm. split.
    + intros E. apply Qltb_true. congruence.
    + intros H. apply Qltb_true in H. by rewrite H.
  - intros H. apply Qltb_true in H. unfold do_entry. rewrite Hm, H. done.
  - intros H. unfold do_entry. rewrite Hm.
    destruct (Qltb a b) eqn:E; [by apply Qltb_true in E|done].
  - intros x y Hx Hy Fx Fy.
    destruct (float_of_few_digits _ _ x y Hx Hy Fx Fy) as (v1 & v2 & E1 & E2 & H).
    rewrite Ha in E1. rewrite Hb in E2.
    injection E1 as <-. injection E2 as <-. done.
Qed.

Lemma resume_marker_skips_smaller_ids_witness :
  (before_marker (Some (str "2301.00010")) (entry_id entry_jet) = Some true
   <-> (Qmake 5059952840878640 2199023255552
        < Qmake 5059952730927478 2199023255552)%Q)
  /\ ((Qmake 5059952840878640 2199023255552
       < Qmake 5059952730927478 2199023255552)%Q
      <-> (Qmake 230100015 (pow10 5) < Qmake 230100010 (pow10 5))%Q).
Proof.
  pose proof (resume_marker_skips_smaller_ids first_seen [] (str "2301.00010")
                q0 entry_jet (Qmake 5059952840878640 2199023255552)
                (Qmake 5059952730927478 2199023255552)) as H.
  destruct H as (H1 & _ & _ & H2 & _).
  - vm_compute. reflexivity.
  - vm_compute. reflexivity.
  - split; [exact H1|]. apply H2.
    + vm_compute. reflexivity.
    + vm_compute. reflexivity.
    + vm_compute. lia.
    + vm_compute. lia.
Defined.

(** ** The Paper Aggregator *)

Lemma Paper_eqb_true (p q : Paper) :
  Paper_eqb p q = true <-> arxiv_id p = arxiv_id q.
Proof. apply str_eqb_true. Qed.

Lemma dedup_by_subset {A} (eqb : A -> A -> bool) (l : list A) (x : A) :
  x ∈ dedup_by eqb l -> x ∈ l.
Proof.
  induction l as [|y l IH]; simpl; [done|].
  rewrite !elem_of_cons, list_elem_of_filter.
  intros [-> | [_ H]]; [by left | right; by apply IH].
Qed.

Lemma map_filter_NoDup {A B} (f : A -> B) (P : A -> Prop)
    `{forall x, Decision (P x)} (l : list A) :
  NoDup (map f l) -> NoDup (map f (filter P l)).
Proof.
  induction l as [|x l IH]; simpl; [done|].
  rewrite NoDup_cons. intros [Hx Hl]. rewrite filter_cons.
  destruct (decide (P x)); [|by apply IH].
  simpl. apply NoDup_cons. split; [|by apply IH].
  intros Hin. apply Hx. apply list_elem_of_In, in_map_iff in Hin.
  destruct Hin as (y & E & Hy). apply list_elem_of_In, list_elem_of_filter in Hy.
  apply list_elem_of_In, in_map_iff. exists y.
  split; [done | apply list_elem_of_In; tauto].
Qed.

Lemma dedup_by_ids (l : list Paper) :
  NoDup (map arxiv_id (dedup_by Paper_eqb l)).
Proof.
  induction l as [|x l IH]; simpl; [apply NoDup_nil_2|].
  apply NoDup_cons. split; [|by apply map_filter_NoDup].
  intros Hin. apply list_elem_of_In, in_map_iff in Hin.
  destruct Hin as (y & E & Hy).
  apply list_elem_of_In, list_elem_of_filter in Hy as [Hy _].
  symmetry in E. apply Paper_eqb_true in E. by rewrite E in Hy.
Qed.

Lemma dedup_by_covers (l : list Paper) (p : Paper) :
  p ∈ l -> exists q, q ∈ dedup_by Paper_eqb l /\ arxiv_id q = arxiv_id p.
Proof.
  induction l as [|x l IH]; [by intros ?%elem_of_nil|].
  intros [-> | Hp]%elem_of_cons; simpl.
  - exists x. split; [apply elem_of_cons; by left | done].
  - destruct (IH Hp) as (q & Hq & E).
    destruct (Paper_eqb x q) eqn:Hx.
    + exists x. split; [apply elem_of_cons; by left|].
      apply Paper_eqb_true in Hx. congruence.
    + exists q. split; [|done]. apply elem_of_cons. right.
      apply list_elem_of_filter. by rewrite Hx.
Qed.

Lemma insert_desc_perm {A} (ltb : A -> A -> bool) (x : A) (l : list A) :
  insert_desc ltb x l ≡ₚ x :: l.
Proof.
  induction l as [|y l IH]; simpl; [done|].
  destruct (ltb x y); [|done]. rewrite IH. apply Permutation_swap.
Qed.

Lemma sort_desc_perm {A} (ltb : A -> A -> bool) (l : list A) :
  sort_desc ltb l ≡ₚ l.
Proof.
  induction l as [|x l IH]; simpl; [done|].
  rewrite insert_desc_perm. by rewrite IH.
Qed.

Lemma count_equal_one (l : list Paper) (p : Paper) :
  NoDup (map arxiv_id l) -> p ∈ l ->
  length (filter (fun q => Paper_eqb q p) l) = 1.
Proof.
  induction l as [|x l IH]; [by intros _ ?%elem_of_nil|].
  simpl. rewrite NoDup_cons. intros [Hx Hl] Hp. rewrite filter_cons.
  destruct (decide (Paper_eqb x p)) as [E | E].
  - simpl. f_equal. apply length_zero_iff_nil, elem_of_nil_inv.
    intros y [Hy Hin]%list_elem_of_filter. apply Hx.
    apply Is_true_true, Paper_eqb_true in E.
    apply Is_true_true, Paper_eqb_true in Hy.
    apply list_elem_of_In, in_map_iff. exists y.
    split; [congruence | by apply list_elem_of_In].
  - apply IH; [done|]. apply elem_of_cons in Hp as [-> | Hp]; [|done].
    exfalso. apply E. apply Is_true_true, Paper_eqb_true. done.
Qed.

Section Aggregator.

Variable set_order : forall A : Type, list A -> list A.
Hypothesis set_order_perm : forall A (l : list A), set_order A l ≡ₚ l.

Lemma aggregate_perm (l : list Paper) :
  aggregate set_order l ≡ₚ dedup_by Paper_eqb l.
Proof using set_order_perm.
  unfold aggregate, py_set. by rewrite sort_desc_perm, set_order_perm.
Qed.

Lemma aggregate_ids (l : list Paper) :
  NoDup (map arxiv_id (aggregate set_order l)).
Proof using set_order_perm.
  rewrite (Permutation_map arxiv_id (aggregate_perm l)). apply dedup_by_ids.
Qed.

Lemma aggregate_subset (l : list Paper) (q : Paper) :
  q ∈ aggregate set_order l -> q ∈ l.
Proof using set_order_perm.
  rewrite aggregate_perm. apply dedup_by_subset.
Qed.

Lemma aggregate_covers (l : list Paper) (p : Paper) :
  p ∈ l -> exists q, q ∈ aggregate set_order l /\ arxiv_id q = arxiv_id p.
Proof using set_order_perm.
  intros Hp. destruct (dedup_by_covers l p Hp) as (q & Hq & E).
  exists q. split; [by rewrite aggregate_perm | done].
Qed.

(** What [search_arxiv] returns is the aggregate of what its queries
    returned. *)
Lemma search_loop_collects (ks : list Keyword) (old_id : option pystr)
    (feeds : list (list Entry)) (acc : list Paper) (cl : pystr)
    (out : list Paper) (l : pystr) :
  search_loop set_order ks old_id feeds acc cl = Some (out, l) ->
  exists queries,
    Forall2 (fun es ps => exists li, do_query set_order ks old_id es = Some (ps, li))
            feeds queries
    /\ out = acc ++ concat queries.
Proof.
  revert acc cl. induction feeds as [|es feeds IH]; intros acc cl; simpl.
  - intros [= <- <-]. exists []. split; [constructor | by rewrite app_nil_r].
  - destruct (do_query set_order ks old_id es) as [[ps li]|] eqn:Eq; [|done].
    simpl. destruct (float_of (strip_version cl)) as [a|]; [|done]. simpl.
    destruct li as [li|]; [|done]. simpl.
    destruct (float_of (strip_version li)) as [b|]; [|done]. simpl.
    intros H. destruct (IH _ _ H) as (queries & HF & ->).
    exists (ps :: queries). split; [|by rewrite <- app_assoc].
    constructor; [eauto | done].
Qed.

End Aggregator.

(** C9: two Papers are equal exactly when their ids are, and in the
    sequence the aggregator makes of the results of the category queries
    no id occurs twice, while every Paper some query returned has exactly
    one equal in it; the sequence [search_arxiv] returns is such an
    aggregate. *)
Theorem aggregated_ids_appear_once set_order (queries : list (list Paper)) :
  (forall A (l : list A), set_order A l ≡ₚ l) ->
  (forall p q, Paper_eqb p q = true <-> arxiv_id p = arxiv_id q)
  /\ NoDup (map arxiv_id (aggregate set_order (concat queries)))
  /\ (forall ps p, ps ∈ queries -> p ∈ ps ->
      length (filter (fun q => Paper_eqb q p)
                     (aggregate set_order (concat queries))) = 1)
  /\ (forall ks old_id feeds out last,
      search_arxiv set_order ks old_id feeds = Some (out, last) ->
      exists qs,
        Forall2 (fun es ps => exists li, do_query set_order ks old_id es = Some (ps, li))
                feeds qs
        /\ out = aggregate set_order (concat qs)).
Proof.
  intros Hperm. split; [apply Paper_eqb_true|].
  split; [by apply aggregate_ids|]. split.
  - intros ps p Hps Hp.
    assert (p ∈ concat queries) as Hin.
    { apply list_elem_of_In, in_concat. exists ps.
      split; by apply list_elem_of_In. }
    destruct (aggregate_covers set_order Hperm _ _ Hin) as (q & Hq & E).
    rewrite <- (count_equal_one _ q (aggregate_ids set_order Hperm _) Hq).
    f_equal. apply list_filter_iff. intros x. unfold Paper_eqb. by rewrite E.
  - intros ks old_id feeds out last. unfold search_arxiv.
    destruct (search_loop _ _ _ _ _ _) as [[cp cl]|] eqn:El; [|done].
    simpl. intros [= <- <-].
    destruct (search_loop_collects _ _ _ _ _ _ _ _ El) as (qs & HF & ->).
    exists qs. done.
Qed.

Lemma aggregated_ids_appear_once_witness :
  NoDup (map arxiv_id (aggregate first_seen (concat [[paper_jet]; [paper_jet]])))
  /\ length (filter (fun q => Paper_eqb q paper_jet)
                    (aggregate first_seen (concat [[paper_jet]; [paper_jet]]))) = 1.
Proof.
  pose proof (aggregated_ids_appear_once first_seen [[paper_jet]; [paper_jet]])
    as H.
  destruct H as (_ & H1 & H2 & _).
  - intros A l. apply first_seen_perm.
  - split; [exact H1|]. apply (H2 [paper_jet]).
    + apply elem_of_cons. left. reflexivity.
    + apply elem_of_cons. left. reflexivity.
Defined.

(** ** The Channel Filter *)

Lemma wants_set_posted (c : pystr) (n : Z) (b : bool) (p : Paper) :
  wants c n (set_posted b p) = wants c n p.
Proof. done. Qed.

Lemma marks_refl (h : heap) : marks h h.
Proof. split; [done | by left]. Qed.

Lemma marks_trans (h1 h2 h3 : heap) : marks h1 h2 -> marks h2 h3 -> marks h1 h3.
Proof.
  intros [L1 H1] [L2 H2]. split; [congruence|]. intros r p Hp.
  destruct (H1 r p Hp) as [E | E]; destruct (H2 r _ E) as [E' | E']; eauto.
Qed.

Lemma marks_insert (h : heap) (r : ref) (p : Paper) :
  h !! r = Some p -> marks h (<[r := set_posted true p]> h).
Proof.
  intros Hp. split; [apply length_insert|]. intros r' p' Hp'.
  destruct (decide (r = r')) as [<- | Hne].
  - right. rewrite list_lookup_insert_eq by by eapply lookup_lt_Some.
    congruence.
  - left. by rewrite list_lookup_insert_ne.
Qed.

Lemma marks_posted (h h' : heap) (r : ref) : marks h h' -> posted h r -> posted h' r.
Proof.
  intros [_ H] (p & Hp & Hf).
  destruct (H r p Hp) as [E | E]; eexists; split; try exact E; done.
Qed.

Lemma marks_wants (h h' : heap) (r : ref) (p' : Paper) (c : pystr) (n : Z) :
  marks h h' -> h' !! r = Some p' ->
  exists p, h !! r = Some p /\ wants c n p = wants c n p'
            /\ (posted_to_slack p' = false -> p = p').
Proof.
  intros [L H] Hp'.
  destruct (h !! r) as [p|] eqn:Hp.
  - exists p. split; [done|].
    destruct (H r p Hp) as [E | E]; rewrite E in Hp'; injection Hp' as <-; done.
  - apply lookup_ge_None in Hp. apply lookup_lt_Some in Hp'. lia.
Qed.

(** After the reset no paper of the list is marked. *)
Lemma reset_posted_lookup (papers : list ref) (h : heap) (r : ref) :
  reset_posted papers h !! r
  = if decide (r ∈ papers) then set_posted false <$> h !! r else h !! r.
Proof.
  revert h. induction papers as [|r0 papers IH]; intros h; simpl.
  - destruct (decide (r ∈ [])) as [H|]; [by apply elem_of_nil in H | done].
  - unfold reset_posted in IH. rewrite IH.
    destruct (decide (r0 = r)) as [-> | Hne].
    + rewrite list_lookup_alter_eq.
      destruct (decide (r ∈ r :: papers)) as [_ | H];
        [| exfalso; apply H, elem_of_cons; by left].
      destruct (decide (r ∈ papers)); [|done].
      by destruct (h !! r).
    + rewrite list_lookup_alter_ne by done.
      destruct (decide (r ∈ papers)) as [H | H];
        destruct (decide (r ∈ r0 :: papers)) as [H' | H']; try done.
      * exfalso. apply H', elem_of_cons. by right.
      * apply elem_of_cons in H' as [-> | H']; done.
Qed.

Lemma reset_posted_clears (papers : list ref) (h : heap) (r : ref) :
  r ∈ papers -> ~ posted (reset_posted papers h) r.
Proof.
  intros Hr (p & Hp & Hf). rewrite reset_posted_lookup in Hp.
  destruct (decide (r ∈ papers)); [|done].
  destruct (h !! r); simpl in Hp; [|done]. injection Hp as <-. done.
Qed.

Section Filter.

Variable papers : list ref.

Lemma taken_inv_reset (h : heap) : taken_inv papers (reset_posted papers h) [].
Proof.
  split; [apply NoDup_nil_2|]. split.
  - by intros r ?%elem_of_nil.
  - intros r Hr Hp. by apply reset_posted_clears in Hp.
Qed.

(** One channel: the inner loop run over a part [rest] of [papers]. *)
Lemma filter_channel_spec (c : pystr) (n : Z) (rest : list ref) :
  forall (h : heap) (f : list ref) (h' : heap) (f' : list ref),
  (rest ⊆ papers) ->
  taken_inv papers h f ->
  filter_channel c n rest h f = (h', f') ->
  taken_inv papers h' f' /\ marks h h'
  /\ exists new, f' = f ++ new
     /\ (forall r, r ∈ new ->
         r ∈ rest /\ (r ∉ f)
         /\ exists p, h !! r = Some p /\ qualifies c n p = true)
     /\ (forall r p, r ∈ rest -> h !! r = Some p -> wants c n p = true -> r ∈ f').
Proof.
  induction rest as [|r0 rest IH]; intros h f h' f' Hsub Hinv; simpl.
  - intros [= <- <-]. split; [done|]. split; [apply marks_refl|].
    exists []. rewrite app_nil_r. split; [done|].
    split; [by intros r ?%elem_of_nil | by intros r p ?%elem_of_nil].
  - assert (rest ⊆ papers) as Hsub'.
    { intros x Hx. apply Hsub, elem_of_cons. by right. }
    assert (r0 ∈ papers) as Hr0 by (apply Hsub, elem_of_cons; by left).
    assert (forall h1 f1,
      taken_inv papers h1 f1 -> marks h h1 -> (exists d, f1 = f ++ d /\
         (forall r, r ∈ d -> r = r0 /\ (r ∉ f)
                              /\ exists p, h !! r = Some p /\ qualifies c n p = true)) ->
      (forall p, h !! r0 = Some p -> wants c n p = true -> r0 ∈ f1) ->
      filter_channel c n rest h1 f1 = (h', f') ->
      taken_inv papers h' f' /\ marks h h'
      /\ exists new, f' = f ++ new
         /\ (forall r, r ∈ new ->
             r ∈ r0 :: rest /\ (r ∉ f)
             /\ exists p, h !! r = Some p /\ qualifies c n p = true)
         /\ (forall r p, r ∈ r0 :: rest -> h !! r = Some p ->
             wants c n p = true -> r ∈ f')) as Hgo.
    { intros h1 f1 Hinv1 Hm (d & -> & Hd) Hr0f E.
      destruct (IH _ _ _ _ Hsub' Hinv1 E) as (Hinv' & Hm' & new & -> & Hnew & Hall).
      split; [done|]. split; [by eapply marks_trans|].
      exists (d ++ new). rewrite app_assoc. split; [done|]. split.
      - intros r [Hr | Hr]%elem_of_app.
        + destruct (Hd r Hr) as (-> & Hnf & Hq).
          split; [apply elem_of_cons; by left | done].
        + destruct (Hnew r Hr) as (Hrest & Hnf & p1 & Hp1 & Hq1).
          split; [apply elem_of_cons; by right|].
          split; [intros Hf; apply Hnf, elem_of_app; by left|].
          destruct (marks_wants h h1 r p1 c n Hm Hp1) as (p & Hp & Hw & Hsame).
          exists p. split; [done|].
          unfold qualifies in Hq1. apply andb_true_iff in Hq1 as [Hf1 Hw1].
          apply negb_true_iff in Hf1. rewrite (Hsame Hf1). unfold qualifies.
          by rewrite Hf1, Hw1.
      - intros r p [-> | Hr]%elem_of_cons Hp Hw.
        + apply elem_of_app. left. by eapply Hr0f.
        + destruct Hm as [_ Hm]. destruct (Hm r p Hp) as [Er | Er].
          * by apply (Hall r p).
          * by apply (Hall r (set_posted true p)). }
    destruct (h !! r0) as [p0|] eqn:Hp0.
    + destruct (qualifies c n p0) eqn:Hq.
      * apply Hgo.
        -- destruct Hinv as (Hnd & Hpost & Hback).
           unfold qualifies in Hq. apply andb_true_iff in Hq as [Hf0 _].
           apply negb_true_iff in Hf0.
           assert (r0 ∉ f) as Hnf.
           { intros Hf. destruct (Hpost r0 Hf) as (p & Hp & Hfl). congruence. }
           split; [|split].
           ++ apply NoDup_app. split; [done|]. split; [|apply NoDup_singleton].
              intros x Hx ->%list_elem_of_singleton. done.
           ++ intros r [Hr | ->%list_elem_of_singleton]%elem_of_app.
              ** eapply marks_posted; [by apply marks_insert | by apply Hpost].
              ** exists (set_posted true p0). split; [|done].
                 apply list_lookup_insert_eq. by eapply lookup_lt_Some.
           ++ intros r Hr (p & Hp & Hfl). apply elem_of_app.
              destruct (decide (r = r0)) as [-> | Hne].
              ** right. by apply list_elem_of_singleton.
              ** left. apply Hback; [done|]. exists p.
                 rewrite list_lookup_insert_ne in Hp by done. done.
        -- by apply marks_insert.
        -- exists [r0]. split; [done|]. intros r ->%list_elem_of_singleton.
           split; [done|]. split; [|eauto].
           destruct Hinv as (_ & Hpost & _). intros Hf.
           destruct (Hpost r0 Hf) as (p & Hp & Hfl).
           unfold qualifies in Hq. apply andb_true_iff in Hq as [Hf0 _].
           apply negb_true_iff in Hf0. congruence.
        -- intros _ _ _. apply elem_of_app. right. by apply list_elem_of_singleton.
      * apply Hgo; [done | apply marks_refl | |].
        -- exists []. rewrite app_nil_r. split; [done|]. by intros r ?%elem_of_nil.
        -- intros p [= <-] Hw. destruct Hinv as (_ & _ & Hback).
           apply Hback; [done|]. exists p0. split; [done|].
           unfold qualifies in Hq. rewrite Hw, andb_true_r in Hq.
           by apply negb_false_iff in Hq.
    + apply Hgo; [done | apply marks_refl | | done].
      exists []. rewrite app_nil_r. split; [done|]. by intros r ?%elem_of_nil.
Qed.

End Filter.

Lemma filter_channels_app (req1 req2 : dict) (papers : list ref)
    (h : heap) (f : list ref) :
  filter_channels (req1 ++ req2) papers h f
  = let '(h1, f1) := filter_channels req1 papers h f in
    filter_channels req2 papers h1 f1.
Proof.
  revert h f. induction req1 as [|[c n] req1 IH]; intros h f; simpl; [done|].
  destruct (filter_channel c n papers h f) as [h1 f1]. apply IH.
Qed.

Lemma filter_channels_spec (papers : list ref) (req : dict) :
  forall (h : heap) (f : list ref) (h' : heap) (f' : list ref),
  taken_inv papers h f ->
  filter_channels req papers h f = (h', f') ->
  taken_inv papers h' f' /\ marks h h' /\ exists later, f' = f ++ later.
Proof.
  induction req as [|[c n] req IH]; intros h f h' f' Hinv; simpl.
  - intros [= <- <-]. split; [done|]. split; [apply marks_refl|].
    exists []. by rewrite app_nil_r.
  - destruct (filter_channel c n papers h f) as [h1 f1] eqn:E1. intros E.
    destruct (filter_channel_spec papers c n papers h f h1 f1) as
      (Hinv1 & Hm1 & new & -> & _); try done.
    destruct (IH _ _ _ _ Hinv1 E) as (Hinv' & Hm' & later & ->).
    split; [done|]. split; [by eapply marks_trans|].
    exists (new ++ later). by rewrite app_assoc.
Qed.

(** C8: in one pass of the filter no paper is selected twice.  Cut the
    mapping at any channel [c]: the papers selected before [c] is reached
    are all marked as delivered; [c] adds papers that are not among them,
    were unmarked and qualify for [c]; every paper of the list that wants
    [c] has been selected once [c] is done, by [c] or by a channel before
    it; and the selections of the later channels follow without
    repeating any. *)
Theorem channel_filter_selects_once (papers : list ref) (req1 req2 : dict)
    (c : pystr) (n : Z) (h : heap) :
  let '(h1, f1) := filter_channels req1 papers (reset_posted papers h) [] in
  let '(h2, f2) := filter_channel c n papers h1 f1 in
  let '(h', sel) :=
    filter_keyword_requires papers (Some (req1 ++ (c, n) :: req2)) h in
  NoDup sel
  /\ (forall req, NoDup (snd (filter_keyword_requires papers (Some req) h)))
  /\ exists new later,
       f2 = f1 ++ new /\ sel = f1 ++ new ++ later
       /\ (forall r, r ∈ f1 -> posted h1 r)
       /\ (forall r, r ∈ new ->
           (r ∉ f1) /\ exists p, h1 !! r = Some p
                                 /\ posted_to_slack p = false
                                 /\ wants c n p = true)
       /\ (forall r p, r ∈ papers -> h1 !! r = Some p ->
           wants c n p = true -> r ∈ f1 ++ new).
Proof.
  pose proof (taken_inv_reset papers h) as Hinv0.
  destruct (filter_channels req1 papers (reset_posted papers h) [])
    as [h1 f1] eqn:E1.
  destruct (filter_channels_spec _ _ _ _ _ _ Hinv0 E1) as (Hinv1 & _ & _).
  destruct (filter_channel c n papers h1 f1) as [h2 f2] eqn:E2.
  destruct (filter_channel_spec papers c n papers h1 f1 h2 f2)
    as (Hinv2 & _ & new & -> & Hnew & Hall); try done.
  unfold filter_keyword_requires. rewrite filter_channels_app, E1.
  cbn [filter_channels]. rewrite E2.
  destruct (filter_channels req2 papers h2 (f1 ++ new)) as [h' sel] eqn:E3.
  destruct (filter_channels_spec _ _ _ _ _ _ Hinv2 E3) as (Hinv3 & _ & later & ->).
  split; [apply Hinv3|]. split.
  { intros req.
    destruct (filter_channels req papers (reset_posted papers h) [])
      as [hr fr] eqn:Er.
    destruct (filter_channels_spec _ _ _ _ _ _ Hinv0 Er) as (Hinvr & _).
    apply Hinvr. }
  exists new, later. rewrite <- app_assoc. repeat split; try done.
  - apply Hinv1.
  - by apply Hnew.
  - destruct (Hnew r H) as (_ & _ & p & Hp & Hq).
    apply andb_true_iff in Hq as [Hf Hw]. apply negb_true_iff in Hf. eauto.
Qed.

(** ** The empty mapping *)

(** C3 as it is worded fails: with an empty mapping the filter returns no
    paper at all. *)
Lemma filter_empty_mapping_not_identity :
  snd (filter_keyword_requires [0] (Some []) [paper_jet]) <> [0].
Proof. by vm_compute. Qed.

(** C3, as the code has it: the filter hands the list back untouched when
    it is given no mapping at all ([None]); given a mapping without
    channels it returns the empty list. *)
Theorem filter_identity_without_mapping (papers : list ref) (h : heap) :
  filter_keyword_requires papers None h = (h, papers)
  /\ snd (filter_keyword_requires papers (Some []) h) = [].
Proof. done. Qed.

(** ** Dispatch after the filter *)

Lemma post_text_set_posted (b : bool) (p : Paper) :
  post_text (set_posted b p) = post_text p.
Proof. done. Qed.



Lemma channel_body_all_posted (c : pystr) (n : Z) (sel : list ref)
    (h : heap) (body : pystr) :
  (forall r, r ∈ sel -> posted h r) ->
  channel_body c n sel h body = (h, body).
Proof.
  induction sel as [|r sel IH]; intros Hp; simpl; [done|].
  assert (forall r, r ∈ sel -> posted h r) as Hp'.
  { intros x Hx. apply Hp, elem_of_cons. by right. }
  destruct (Hp r) as (p & -> & Hf); [apply elem_of_cons; by left|].
  unfold qualifies. rewrite Hf. simpl. by apply IH.
Qed.

Lemma slack_post_all_posted (sel : list ref) (req : dict)
    (username icon_emoji webhook : option pystr) (h : heap) :
  (forall r, r ∈ sel -> posted h r) ->
  slack_post sel req username icon_emoji webhook h
  = (h, match webhook with
        | None => []
        | Some _ => map (fun cn => mkPayload (fst cn) username icon_emoji []) req
        end).
Proof.
  intros Hp. induction req as [|[c n] req IH]; simpl.
  - by destruct webhook.
  - rewrite channel_body_all_posted by done. rewrite IH. by destruct webhook.
Qed.

(** C2, at the inputs that break it: the filter leaves every paper it
    selects marked as delivered, and [slack_post] takes only unmarked
    papers, so after the filter the text of every channel's payload is
    empty; the paper [paper_jet], selected for [#general], is in no
    payload. *)
Theorem slack_post_after_filter_sends_no_paper :
  (forall (papers : list ref) (req : dict) (h : heap)
          (username icon_emoji : option pystr) (w : pystr),
     let '(h', sel) := filter_keyword_requires papers (Some req) h in
     slack_post sel req username icon_emoji (Some w) h'
     = (h', map (fun cn => mkPayload (fst cn) username icon_emoji []) req))
  /\ deliver [paper_jet] [(general, 1%Z)] None None (Some hook)
     = ([0], [mkPayload general None None []]).
Proof.
  split; [|by vm_compute].
  intros papers req h username icon_emoji w.
  destruct (filter_keyword_requires papers (Some req) h) as [h' sel] eqn:E.
  unfold filter_keyword_requires in E.
  destruct (filter_channels_spec _ _ _ _ _ _ (taken_inv_reset papers h) E)
    as ((_ & Hp & _) & _).
  by apply slack_post_all_posted.
Qed.

(** ** The RuleSet Parser *)

Lemma strip_suffixes_plain (kw : pystr) :
  isin (str "-") (last_two kw) = false ->
  isin (str "!") (last_two kw) = false ->
  strip_suffixes kw = (kw, str "any", false).
Proof. intros H1 H2. unfold strip_suffixes. by rewrite H1, H2. Qed.

Lemma last_two_app (w t : pystr) : length t = 2 -> last_two (w ++ t) = t.
Proof.
  intros Ht. unfold last_two. rewrite length_app, Ht.
  replace (length w + 2 - 2) with (length w) by lia.
  by rewrite drop_app_length.
Qed.

Lemma drop_last_app (w : pystr) (c : ascii) : drop_last (w ++ [c]) = w.
Proof.
  unfold drop_last. rewrite length_app. simpl.
  replace (length w + 1 - 1) with (length w) by lia.
  by rewrite take_app_length.
Qed.

Lemma plain_end_inv (w : pystr) :
  plain_end w = true ->
  w = [] \/ exists w' c, w = w' ++ [c] /\ plain_char c = true.
Proof.
  unfold plain_end. destruct (rev w) as [|c r] eqn:E; intros H.
  - left. by rewrite <- (rev_involutive w), E.
  - right. exists (rev r), c. split; [|done].
    by rewrite <- (rev_involutive w), E.
Qed.

Lemma strip_suffixes_two (v : pystr) (c d : ascii) :
  strip_suffixes ((v ++ [c]) ++ [d])
  = let lt := [c; d] in
    let '(mt, kw1) :=
      if isin (str "-") lt then (str "unique", v ++ [c])
      else (str "any", (v ++ [c]) ++ [d]) in
    let '(rq, kw2) :=
      if isin (str "!") lt then (true, drop_last kw1) else (false, kw1) in
    (kw2, mt, rq).
Proof.
  unfold strip_suffixes.
  assert (last_two ((v ++ [c]) ++ [d]) = [c; d]) as ->.
  { rewrite <- app_assoc. by apply last_two_app. }
  by rewrite drop_last_app.
Qed.

Lemma plain_char_inv (c : ascii) :
  plain_char c = true ->
  ascii_eqb (ascii_of_nat 45) c = false /\ ascii_eqb (ascii_of_nat 33) c = false.
Proof.
  unfold plain_char. intros [H1 H2]%andb_true_iff.
  apply negb_true_iff in H1, H2.
  split; apply not_true_iff_false; intros E; apply ascii_eqb_true in E;
    subst c; done.
Qed.

(** The suffixes on a keyword that does not itself end in [-] or [!]:
    each is recognised and cut off, alone or combined in either order,
    and nothing else is. *)
Lemma strip_suffixes_well_formed (w : pystr) :
  plain_end w = true ->
  strip_suffixes (w ++ str "-") = (w, str "unique", false)
  /\ strip_suffixes (w ++ str "!") = (w, str "any", true)
  /\ strip_suffixes (w ++ str "-!") = (w, str "unique", true)
  /\ strip_suffixes (w ++ str "!-") = (w, str "unique", true).
Proof.
  intros Hw. split; [|split; [|split]].
  - destruct (plain_end_inv w Hw) as [-> | (w' & c & -> & Hc)]; [done|].
    destruct (plain_char_inv c Hc) as [H1 H2].
    change (str "-") with [ascii_of_nat 45]. rewrite strip_suffixes_two.
    change (str "-") with [ascii_of_nat 45].
    change (str "!") with [ascii_of_nat 33].
    cbn [isin startswith]. rewrite H1, H2. done.
  - destruct (plain_end_inv w Hw) as [-> | (w' & c & -> & Hc)]; [done|].
    destruct (plain_char_inv c Hc) as [H1 H2].
    change (str "!") with [ascii_of_nat 33]. rewrite strip_suffixes_two.
    change (str "-") with [ascii_of_nat 45].
    change (str "!") with [ascii_of_nat 33].
    cbn [isin startswith]. rewrite H1, H2. simpl. by rewrite drop_last_app.
  - change (w ++ str "-!") with (w ++ [ascii_of_nat 45] ++ [ascii_of_nat 33]).
    rewrite app_assoc, strip_suffixes_two. simpl. by rewrite drop_last_app.
  - change (w ++ str "!-") with (w ++ [ascii_of_nat 33] ++ [ascii_of_nat 45]).
    rewrite app_assoc, strip_suffixes_two. simpl. by rewrite drop_last_app.
Qed.

(** The same on the keyword [nova], and a keyword with an inner [-]. *)
Lemma strip_suffixes_examples :
  strip_suffixes (str "nova") = (str "nova", str "any", false)
  /\ strip_suffixes (str "nova-") = (str "nova", str "unique", false)
  /\ strip_suffixes (str "nova!") = (str "nova", str "any", true)
  /\ strip_suffixes (str "nova-!") = (str "nova", str "unique", true)
  /\ strip_suffixes (str "nova!-") = (str "nova", str "unique", true)
  /\ strip_suffixes (str "x-ray") = (str "x-ray", str "any", false).
Proof. by vm_compute. Qed.

(** C4, at the inputs that break it: the suffixes are looked for anywhere
    in the last two characters, so a [-] or [!] in the last place but one
    makes the parser cut off the last character, whatever it is.  The line
    [3-d] is stored as [3-] in unique mode and [wow!s] as [wow!], marked
    required. *)
Theorem suffix_test_cuts_a_plain_last_character set_order :
  (forall A (l : list A), set_order A l ≡ₚ l) ->
  strip_suffixes (str "3-d") = (str "3-", str "unique", false)
  /\ strip_suffixes (str "wow!s") = (str "wow!", str "any", true)
  /\ p_keywords <$> parse_lines set_order [str "#general"; str "3-d"; str "wow!s"] p0
     = Some [mkKeyword (str "3-") (str "unique") false (Some general) [];
             mkKeyword (str "wow!") (str "any") true (Some general) []].
Proof.
  intros Hperm. split; [by vm_compute|]. split; [by vm_compute|].
  unfold parse_lines, parse_line. simpl.
  unfold keyword_line, Keyword_init. simpl.
  by rewrite !py_set_nil.
Qed.

Lemma suffix_test_cuts_a_plain_last_character_witness :
  p_keywords <$> parse_lines first_seen [str "#general"; str "3-d"; str "wow!s"] p0
  = Some [mkKeyword (str "3-") (str "unique") false (Some general) [];
          mkKeyword (str "wow!") (str "any") true (Some general) []].
Proof.
  apply (suffix_test_cuts_a_plain_last_character first_seen).
  intros A l. apply first_seen_perm.
Defined.

(** ** The Query Builder *)

Lemma items_get_elem {V} (m : list (pystr * V)) (k : pystr) (v : V) :
  items_get m k = Some v -> (k, v) ∈ m.
Proof.
  induction m as [|[k' v'] m IH]; simpl; [done|].
  destruct (str_eqb k' k) eqn:E.
  - apply str_eqb_true in E. subst k'. intros [= ->]. apply elem_of_cons. by left.
  - intros H. apply elem_of_cons. right. by apply IH.
Qed.

Lemma cat_query_loop_cons (len n : nat) (s : pystr) (rest : list pystr)
    (q : pystr) :
  cat_query_loop len n (s :: rest) q
  = cat_query_loop len (S n) rest
      (if n <? len - 1 then (q ++ s) ++ str "+OR+" else (q ++ s) ++ str "%29").
Proof. done. Qed.

Lemma cat_query_loop_join (len : nat) (rest : list pystr) :
  forall (n : nat) (q : pystr),
  rest <> [] -> len = n + length rest ->
  cat_query_loop len n rest q = q ++ join (str "+OR+") rest ++ str "%29".
Proof.
  induction rest as [|s rest IH]; intros n q Hne Hlen; [done|].
  rewrite cat_query_loop_cons. destruct rest as [|s2 rest].
  - simpl in Hlen.
    assert ((n <? len - 1) = false) as -> by (apply Nat.ltb_ge; lia).
    simpl. by rewrite <- app_assoc.
  - cbn [length] in Hlen.
    assert ((n <? len - 1) = true) as -> by (apply Nat.ltb_lt; lia).
    rewrite IH; [|done | cbn [length]; lia].
    change (join (str "+OR+") (s :: s2 :: rest))
      with (s ++ str "+OR+" ++ join (str "+OR+") (s2 :: rest)).
    by rewrite <- !app_assoc.
Qed.

Lemma category_iterator_nonempty (category : pystr) :
  ArxivCategoryIterator category <> [].
Proof.
  unfold ArxivCategoryIterator, category_iterator.
  destruct (items_get ArxivCategoryMap category) as [subs|] eqn:E; [|done].
  apply items_get_elem in E.
  assert (Forall (fun kv => snd kv <> []) ArxivCategoryMap) as Hall.
  { unfold ArxivCategoryMap. repeat (constructor; [done|]). constructor. }
  rewrite Forall_forall in Hall. specialize (Hall _ E). simpl in Hall.
  by destruct subs.
Qed.

(** X1: a category the taxonomy does not know is yielded as it is; a
    known one yields one string for each of its subcategories, the
    category itself or the category, a period and the subcategory; and no
    category yields nothing. *)
Theorem category_iterator_yields (category : pystr) :
  ArxivCategoryIterator category <> []
  /\ (forall s, s ∈ ArxivCategoryIterator category ->
      s = category \/ exists sub, sub <> [] /\ s = category ++ str "." ++ sub)
  /\ (items_get ArxivCategoryMap category = None ->
      ArxivCategoryIterator category = [category])
  /\ (forall subs, items_get ArxivCategoryMap category = Some subs ->
      length (ArxivCategoryIterator category) = length subs).
Proof.
  split; [apply category_iterator_nonempty|].
  unfold ArxivCategoryIterator, category_iterator.
  destruct (items_get ArxivCategoryMap category) as [subs|] eqn:E.
  - split; [|split; [done|]].
    + intros s Hs. apply list_elem_of_In, in_map_iff in Hs as (sub & <- & _).
      destruct sub as [|c sub]; [by left|]. right. by exists (c :: sub).
    + intros subs' [= <-]. apply length_map.
  - split; [|done].
    intros s Hs. apply list_elem_of_singleton in Hs. by left.
Qed.

(** X2: for a non-empty list of categories the category query is the
    open parenthesis, the categories joined by [+OR+], and the close
    parenthesis; this is the case for the categories of every query, as
    the iterator never yields nothing.  For no category at all only the
    open parenthesis is written. *)
Theorem get_cat_query_joins :
  (forall s cats,
     get_cat_query (s :: cats)
     = str "%28" ++ join (str "+OR+") (s :: cats) ++ str "%29")
  /\ (forall category,
      get_cat_query (ArxivCategoryIterator category)
      = str "%28" ++ join (str "+OR+") (ArxivCategoryIterator category)
        ++ str "%29")
  /\ get_cat_query [] = str "%28".
Proof.
  assert (forall s cats,
            get_cat_query (s :: cats)
            = str "%28" ++ join (str "+OR+") (s :: cats) ++ str "%29") as H.
  { intros s cats. unfold get_cat_query. by apply cat_query_loop_join. }
  split; [done|]. split; [|done].
  intros category.
  pose proof (category_iterator_nonempty category) as Hne.
  destruct (ArxivCategoryIterator category) as [|s cats]; [done | apply H].
Qed.

(** ** The e-mail digest *)

Lemma email_body_cons (p : Paper) (rest : list Paper) (cur : option pystr)
    (body : pystr) :
  email_body (p :: rest) cur body
  = email_body rest (Some (kw_str p))
      ((if match cur with Some k => str_eqb (kw_str p) k | None => false end
        then body else body ++ kw_header (kw_str p))
       ++ Paper_str p ++ [LF]).
Proof. done. Qed.

Lemma email_body_acc (papers : list Paper) (cur : option pystr) (body : pystr) :
  email_body papers cur body = body ++ email_body papers cur [].
Proof.
  revert cur body. induction papers as [|p rest IH]; intros cur body.
  - simpl. by rewrite app_nil_r.
  - rewrite !email_body_cons, IH.
    rewrite (IH _ (_ ++ Paper_str p ++ [LF])).
    destruct (match cur with Some k => str_eqb (kw_str p) k | None => false end);
      rewrite ?app_nil_l, <- ?app_assoc; done.
Qed.

Lemma email_body_same (papers : list Paper) (k : pystr) :
  (forall p, p ∈ papers -> kw_str p = k) ->
  email_body papers (Some k) [] = paper_lines papers.
Proof.
  induction papers as [|p rest IH]; intros Hk; [done|].
  rewrite email_body_cons, (Hk p) by (apply elem_of_cons; by left).
  rewrite str_eqb_refl, email_body_acc, app_nil_l.
  rewrite IH; [|intros q Hq; apply Hk, elem_of_cons; by right].
  unfold paper_lines. simpl. by rewrite <- app_assoc.
Qed.

Lemma email_body_fresh (papers : list Paper) (q : Paper) (k : pystr) :
  head papers = Some q -> kw_str q <> k ->
  email_body papers (Some k) [] = email_body papers None [].
Proof.
  destruct papers as [|p rest]; [done|]. intros [= ->] Hne.
  rewrite !email_body_cons.
  destruct (str_eqb (kw_str q) k) eqn:E; [|done].
  by apply str_eqb_true in E.
Qed.

Lemma email_body_app (l1 l2 : list Paper) (cur : option pystr) :
  email_body (l1 ++ l2) cur []
  = email_body l1 cur []
    ++ email_body l2 (match last l1 with
                      | Some p => Some (kw_str p)
                      | None => cur
                      end) [].
Proof.
  revert cur. induction l1 as [|p l1 IH]; intros cur; [done|].
  change ((p :: l1) ++ l2) with (p :: (l1 ++ l2)).
  rewrite !email_body_cons.
  set (B := _ ++ Paper_str p ++ [LF]).
  rewrite (email_body_acc (l1 ++ l2) _ B), (email_body_acc l1 _ B), IH.
  rewrite <- app_assoc. do 2 f_equal.
  destruct l1 as [|p' l1]; [done|]. rewrite last_cons_cons.
  destruct (last (p' :: l1)) eqn:E; [done|]. by apply last_None in E.
Qed.

(** X3: nothing is sent or printed for an empty list of papers.  The body
    of a run of papers with one and the same keyword string is one
    header followed by the papers, and where the keyword string changes
    between two neighbours the body of the whole list is the body of the
    part before followed by the body of the part after. *)
Theorem send_email_body :
  (forall mail, send_email [] mail = NoMail)
  /\ (forall p papers k,
      (forall q, q ∈ p :: papers -> kw_str q = k) ->
      email_body (p :: papers) None [] = kw_header k ++ paper_lines (p :: papers))
  /\ (forall l1 l2 p q,
      last l1 = Some p -> head l2 = Some q -> kw_str p <> kw_str q ->
      email_body (l1 ++ l2) None []
      = email_body l1 None [] ++ email_body l2 None [])
  /\ (forall p papers receiver,
      send_email (p :: papers) (Some receiver)
      = Mailed receiver (email_body (p :: papers) None [])).
Proof.
  split; [done|]. split; [|split; [|done]].
  - intros p papers k Hk. rewrite email_body_cons, email_body_acc.
    rewrite (Hk p) by (apply elem_of_cons; by left).
    rewrite email_body_same by (intros q Hq; apply Hk, elem_of_cons; by right).
    unfold paper_lines. simpl. by rewrite <- !app_assoc.
  - intros l1 l2 p q Hp Hq Hne. rewrite email_body_app, Hp.
    f_equal. by apply (email_body_fresh l2 q).
Qed.

Lemma send_email_body_witness :
  email_body ([paper_jet] ++ [set_posted true paper_jet]) None []
  = kw_header (str "jet") ++ paper_lines [paper_jet; set_posted true paper_jet].
Proof.
  destruct send_email_body as (_ & H & _).
  apply (H paper_jet [set_posted true paper_jet] (str "jet")).
  intros q Hq. apply elem_of_cons in Hq as [-> | Hq]; [reflexivity|].
  apply list_elem_of_singleton in Hq. subst q. reflexivity.
Defined.

(** ** The order of papers *)

Lemma code_inj (x y : ascii) : code x = code y -> x = y.
Proof.
  unfold code. intros H.
  by rewrite <- (ascii_nat_embedding x), <- (ascii_nat_embedding y), H.
Qed.

Lemma str_ltb_irrefl (a : pystr) : str_ltb a a = false.
Proof.
  induction a as [|x a IH]; simpl; [done|].
  by rewrite Nat.ltb_irrefl.
Qed.

Lemma str_ltb_trans (a b c : pystr) :
  str_ltb a b = true -> str_ltb b c = true -> str_ltb a c = true.
Proof.
  revert b c. induction a as [|x a IH]; intros [|y b] [|z c]; simpl; try done.
  destruct (code x <? code y) eqn:Exy, (code y <? code x) eqn:Eyx,
    (code y <? code z) eqn:Eyz, (code z <? code y) eqn:Ezy,
    (code x <? code z) eqn:Exz, (code z <? code x) eqn:Ezx;
    try done;
    repeat match goal with
           | H : (_ <? _) = true |- _ => apply Nat.ltb_lt in H
           | H : (_ <? _) = false |- _ => apply Nat.ltb_ge in H
           end; try lia.
  apply IH.
Qed.

Lemma str_ltb_total (a b : pystr) :
  str_ltb a b = false -> str_ltb b a = false -> a = b.
Proof.
  revert b. induction a as [|x a IH]; intros [|y b]; simpl; try done.
  destruct (code x <? code y) eqn:Exy; [done|].
  destruct (code y <? code x) eqn:Eyx; [done|].
  apply Nat.ltb_ge in Exy, Eyx. intros H1 H2.
  f_equal; [apply code_inj; lia | by apply IH].
Qed.

Lemma str_ltb_neg_trans (a b c : pystr) :
  str_ltb a b = false -> str_ltb b c = false -> str_ltb a c = false.
Proof.
  intros Hab Hbc. apply not_true_iff_false. intros Hac.
  destruct (str_ltb b a) eqn:Hba.
  - pose proof (str_ltb_trans _ _ _ Hba Hac). congruence.
  - rewrite (str_ltb_total a b Hab Hba) in Hac. congruence.
Qed.

Lemma Paper_ltb_irrefl (p : Paper) : Paper_ltb p p = false.
Proof. unfold Paper_ltb. by rewrite Nat.eqb_refl, str_ltb_irrefl. Qed.

Lemma Paper_ltb_trans (p q r : Paper) :
  Paper_ltb p q = true -> Paper_ltb q r = true -> Paper_ltb p r = true.
Proof.
  unfold Paper_ltb.
  destruct (length (keywords p) =? length (keywords q)) eqn:E1,
    (length (keywords q) =? length (keywords r)) eqn:E2,
    (length (keywords p) =? length (keywords r)) eqn:E3;
    repeat match goal with
           | H : (_ =? _) = true |- _ => apply Nat.eqb_eq in H
           | H : (_ =? _) = false |- _ => apply Nat.eqb_neq in H
           end;
    rewrite ?Nat.ltb_lt; try lia.
  apply str_ltb_trans.
Qed.

Lemma Paper_ltb_neg_trans (p q r : Paper) :
  Paper_ltb p q = false -> Paper_ltb q r = false -> Paper_ltb p r = false.
Proof.
  unfold Paper_ltb.
  destruct (length (keywords p) =? length (keywords q)) eqn:E1,
    (length (keywords q) =? length (keywords r)) eqn:E2,
    (length (keywords p) =? length (keywords r)) eqn:E3;
    repeat match goal with
           | H : (_ =? _) = true |- _ => apply Nat.eqb_eq in H
           | H : (_ =? _) = false |- _ => apply Nat.eqb_neq in H
           end;
    rewrite ?Nat.ltb_ge; try lia.
  apply str_ltb_neg_trans.
Qed.

Lemma Paper_ltb_asym (p q : Paper) :
  Paper_ltb p q = true -> Paper_ltb q p = false.
Proof.
  intros H. apply not_true_iff_false. intros H'.
  pose proof (Paper_ltb_trans _ _ _ H H') as Hpp.
  by rewrite Paper_ltb_irrefl in Hpp.
Qed.

Lemma Paper_ltb_counts (p q : Paper) :
  Paper_ltb p q = false -> length (keywords q) <= length (keywords p).
Proof.
  unfold Paper_ltb.
  destruct (length (keywords p) =? length (keywords q)) eqn:E.
  - apply Nat.eqb_eq in E. lia.
  - rewrite Nat.ltb_ge. lia.
Qed.

(** X4: [Paper.__lt__] is a strict weak order: no paper is below itself,
    the order is transitive, so is its complement, and two papers neither
    of which is below the other have the same number of keywords and the
    same keyword string. *)
Theorem Paper_lt_strict_weak_order :
  (forall p, Paper_ltb p p = false)
  /\ (forall p q r,
      Paper_ltb p q = true -> Paper_ltb q r = true -> Paper_ltb p r = true)
  /\ (forall p q r,
      Paper_ltb p q = false -> Paper_ltb q r = false -> Paper_ltb p r = false)
  /\ (forall p q,
      Paper_ltb p q = false -> Paper_ltb q p = false ->
      length (keywords p) = length (keywords q) /\ kw_str p = kw_str q).
Proof.
  split; [apply Paper_ltb_irrefl|]. split; [apply Paper_ltb_trans|].
  split; [apply Paper_ltb_neg_trans|].
  intros p q H1 H2.
  pose proof (Paper_ltb_counts _ _ H1). pose proof (Paper_ltb_counts _ _ H2).
  assert (length (keywords p) = length (keywords q)) as E by lia.
  split; [done|]. unfold Paper_ltb in H1, H2.
  rewrite E, Nat.eqb_refl in H1. rewrite E, Nat.eqb_refl in H2.
  by apply str_ltb_total.
Qed.

Lemma insert_desc_sorted (x : Paper) (l : list Paper) :
  StronglySorted (fun p q => Paper_ltb p q = false) l ->
  StronglySorted (fun p q => Paper_ltb p q = false) (insert_desc Paper_ltb x l).
Proof.
  induction 1 as [|y l Hs IH Hy]; simpl; [repeat constructor|].
  destruct (Paper_ltb x y) eqn:E.
  - constructor; [done|]. rewrite insert_desc_perm.
    constructor; [by apply Paper_ltb_asym | done].
  - constructor; [by constructor|]. constructor; [done|].
    eapply Forall_impl; [exact Hy|]. intros z Hz.
    by apply (Paper_ltb_neg_trans x y z).
Qed.

Lemma sort_desc_sorted (l : list Paper) :
  StronglySorted (fun p q => Paper_ltb p q = false) (sort_desc Paper_ltb l).
Proof.
  induction l as [|x l IH]; simpl; [constructor|]. by apply insert_desc_sorted.
Qed.

Lemma StronglySorted_pairs {A} (R : A -> A -> Prop) (l : list A) :
  StronglySorted R l ->
  forall i j x y, i < j -> l !! i = Some x -> l !! j = Some y -> R x y.
Proof.
  induction 1 as [|z l Hs IH Hz]; intros i j x y Hij Hi Hj; [done|].
  destruct j as [|j]; [lia|]. simpl in Hj. destruct i as [|i].
  - simpl in Hi. injection Hi as <-. rewrite Forall_forall in Hz.
    apply Hz. by eapply list_elem_of_lookup_2.
  - simpl in Hi. apply (IH i j); [lia | done | done].
Qed.

(** X5: the sequence the aggregator returns is in descending order: no
    paper is below a paper that comes after it, so the numbers of matched
    keywords never grow along the sequence. *)
Theorem aggregate_descending set_order (cat_papers : list Paper)
    (i j : nat) (p q : Paper) :
  i < j ->
  aggregate set_order cat_papers !! i = Some p ->
  aggregate set_order cat_papers !! j = Some q ->
  Paper_ltb p q = false /\ length (keywords q) <= length (keywords p).
Proof.
  intros Hij Hi Hj.
  assert (Paper_ltb p q = false) as H.
  { unfold aggregate in Hi, Hj.
    exact (StronglySorted_pairs _ _
             (sort_desc_sorted (py_set set_order Paper_eqb cat_papers))
             i j p q Hij Hi Hj). }
  split; [done | by apply Paper_ltb_counts].
Qed.

Lemma aggregate_descending_witness :
  Paper_ltb paper_jet_nova paper_jet = false
  /\ length (keywords paper_jet) <= length (keywords paper_jet_nova).
Proof.
  apply (aggregate_descending first_seen [paper_jet; paper_jet_nova]
           0 1 paper_jet_nova paper_jet).
  - lia.
  - reflexivity.
  - reflexivity.
Defined.

(** ** Sets of strings and channels *)

Lemma opt_str_eqb_true (a b : option pystr) : opt_str_eqb a b = true <-> a = b.
Proof.
  destruct a as [x|], b as [y|]; simpl; try done.
  rewrite str_eqb_true. split; [by intros -> | by intros [= ->]].
Qed.

Section Dedup.

Context {A : Type} (eqb : A -> A -> bool).
Hypothesis eqb_true : forall x y, eqb x y = true <-> x = y.

Lemma dedup_by_elem_of (l : list A) (x : A) : x ∈ dedup_by eqb l <-> x ∈ l.
Proof using eqb_true.
  induction l as [|y l IH]; simpl; [done|].
  rewrite !elem_of_cons, list_elem_of_filter, IH. split.
  - intros [-> | [_ H]]; [by left | by right].
  - intros [-> | H]; [by left|].
    destruct (eqb y x) eqn:E.
    + left. symmetry. by apply eqb_true.
    + by right.
Qed.

Lemma dedup_by_NoDup (l : list A) : NoDup (dedup_by eqb l).
Proof using eqb_true.
  induction l as [|y l IH]; simpl; [apply NoDup_nil_2|].
  apply NoDup_cons. split; [|by apply NoDup_filter].
  intros [H _]%list_elem_of_filter.
  assert (eqb y y = true) as E by by apply eqb_true.
  by rewrite E in H.
Qed.

End Dedup.

Section Sets.

Variable set_order : forall A : Type, list A -> list A.
Hypothesis set_order_perm : forall A (l : list A), set_order A l ≡ₚ l.

Lemma py_set_elem_of {A} (eqb : A -> A -> bool) (l : list A) (x : A) :
  (forall x y, eqb x y = true <-> x = y) ->
  x ∈ py_set set_order eqb l <-> x ∈ l.
Proof using set_order_perm.
  intros H. unfold py_set. by rewrite set_order_perm, dedup_by_elem_of.
Qed.

Lemma py_set_NoDup {A} (eqb : A -> A -> bool) (l : list A) :
  (forall x y, eqb x y = true <-> x = y) ->
  NoDup (py_set set_order eqb l).
Proof using set_order_perm.
  intros H. unfold py_set. rewrite set_order_perm. by apply dedup_by_NoDup.
Qed.

End Sets.

Lemma replace_char_removes (c : ascii) (s : pystr) : c ∉ replace_char c [] s.
Proof.
  unfold replace_char. intros H.
  apply list_elem_of_In, in_flat_map in H as (y & _ & Hy).
  destruct (ascii_eqb y c) eqn:E; [done|].
  destruct Hy as [-> | []]. by rewrite ascii_eqb_refl in E.
Qed.

(** X6: a Paper is made with the keywords it is given, its title without
    any apostrophe, every channel it is given listed exactly once, and
    the delivered flag down. *)
Theorem Paper_init_fields set_order (id ttl u : pystr) (kws : list pystr)
    (chs : list (option pystr)) :
  (forall A (l : list A), set_order A l ≡ₚ l) ->
  let p := Paper_init set_order id ttl u kws chs in
  arxiv_id p = id /\ url p = u /\ keywords p = kws
  /\ (ascii_of_nat 39 ∉ title p)
  /\ NoDup (channels p)
  /\ (forall c, c ∈ channels p <-> c ∈ chs)
  /\ posted_to_slack p = false.
Proof.
  intros Hperm p. subst p. simpl.
  split; [done|]. split; [done|]. split; [done|].
  split; [apply replace_char_removes|].
  split; [apply (py_set_NoDup set_order Hperm), opt_str_eqb_true|].
  split; [|done].
  intros c. apply (py_set_elem_of set_order Hperm), opt_str_eqb_true.
Qed.

Lemma Paper_init_fields_witness :
  NoDup (channels (Paper_init first_seen id_jet (str "Webb's jets") url_jet
                     [str "jet"] [Some general; None; Some general]))
  /\ (ascii_of_nat 39
      ∉ title (Paper_init first_seen id_jet (str "Webb's jets") url_jet
                 [str "jet"] [Some general; None; Some general])).
Proof.
  pose proof (Paper_init_fields first_seen id_jet (str "Webb's jets") url_jet
                [str "jet"] [Some general; None; Some general]) as H.
  destruct H as (_ & _ & _ & H1 & H2 & _).
  - intros A l. apply first_seen_perm.
  - split; [exact H2 | exact H1].
Defined.

(** ** More on the Feed Matcher *)

(** X7: a rule in any mode none of whose exclude terms occurs in the
    entry matches exactly when its text occurs in the lower-cased
    abstract, newlines read as blanks, or in the lower-cased title. *)
Theorem any_rule_matches_iff_occurs (ttl abstract : pystr) (k : Keyword) :
  matching k = str "any" ->
  ~ exclude_occurs ttl abstract k ->
  (fst (get_match ttl abstract k) = true
   <-> occurs (name k) (replace_nl (lower abstract))
       \/ occurs (name k) (lower ttl))
  /\ snd (get_match ttl abstract k) = false.
Proof.
  intros Hm Hx. split; [|by apply get_match_not_excluded].
  unfold get_match. destruct (existsb _ (excludes k)) eqn:E.
  { by apply excluded_true in E. }
  rewrite Hm. change (str_eqb (str "any") (str "any")) with true. cbv iota.
  rewrite <- !isin_true, <- orb_true_iff.
  by destruct (isin (name k) _ || isin (name k) _).
Qed.

Lemma any_rule_matches_iff_occurs_witness :
  fst (get_match (entry_title entry_jet) (e_summary entry_jet) rule_jet) = true
  <-> occurs (name rule_jet) (replace_nl (lower (e_summary entry_jet)))
      \/ occurs (name rule_jet) (lower (entry_title entry_jet)).
Proof.
  apply (any_rule_matches_iff_occurs (entry_title entry_jet)
           (e_summary entry_jet) rule_jet).
  - reflexivity.
  - intros (n & Hn & _). vm_compute in Hn. inversion Hn.
Defined.

Lemma is_space_lower_char (c : ascii) : is_space (lower_char c) = is_space c.
Proof. destruct c as [[] [] [] [] [] [] [] []]; reflexivity. Qed.

Lemma lower_char_idem (c : ascii) : lower_char (lower_char c) = lower_char c.
Proof. destruct c as [[] [] [] [] [] [] [] []]; reflexivity. Qed.

Lemma lower_idem (s : pystr) : lower (lower s) = lower s.
Proof.
  unfold lower. rewrite map_map. apply map_ext. intros c. apply lower_char_idem.
Qed.

Lemma starts_blank_lower (s : pystr) : starts_blank (lower s) = starts_blank s.
Proof. destruct s as [|c s]; [done|]. apply is_space_lower_char. Qed.

(** Lower-casing a text lower-cases its words. *)
Lemma split_ws_lower (s : pystr) : split_ws (lower s) = map lower (split_ws s).
Proof.
  induction s as [|c s IH]; [done|].
  change (lower (c :: s)) with (lower_char c :: lower s).
  cbn [split_ws]. rewrite is_space_lower_char, IH, starts_blank_lower.
  destruct (is_space c); [done|].
  destruct (split_ws s) as [|w ws]; [done|]. simpl.
  by destruct (starts_blank s).
Qed.

Lemma unique_tokens_lower (s : pystr) :
  map (fun l => strip_chars PUNCT (lower l)) (split_ws s)
  = map (strip_chars PUNCT) (split_ws (lower s)).
Proof. by rewrite split_ws_lower, map_map. Qed.

(** X8: matching does not see the case of the text: two titles that are
    equal once lower-cased, and two abstracts likewise, give every rule
    the same result. *)
Theorem get_match_ignores_case (ttl ttl' abstract abstract' : pystr)
    (k : Keyword) :
  lower ttl = lower ttl' -> lower abstract = lower abstract' ->
  get_match ttl abstract k = get_match ttl' abstract' k.
Proof.
  intros Ht Ha. unfold get_match.
  by rewrite !unique_tokens_lower, Ht, Ha.
Qed.

Lemma get_match_ignores_case_witness :
  get_match (str "A Relativistic JET") (str "We Study A Jet.") rule_jet
  = get_match (str "a relativistic jet") (str "we study a jet.") rule_jet.
Proof.
  apply (get_match_ignores_case (str "A Relativistic JET")
           (str "a relativistic jet") (str "We Study A Jet.")
           (str "we study a jet.") rule_jet).
  - reflexivity.
  - reflexivity.
Defined.

(** X9: when a required rule fails and no required rule before it did,
    the rules after it are never looked at and the entry is treated as if
    the list of rules ended just before that rule. *)
Theorem required_failure_cuts_the_rule_list set_order
    (ks1 ks2 : list Keyword) (k : Keyword) (old_id : option pystr)
    (st : qstate) (e : Entry) :
  required k = true ->
  fst (get_match (entry_title e) (e_summary e) k) = false ->
  fst (match_keywords (entry_title e) (e_summary e) ks1 []) = true ->
  match_keywords (entry_title e) (e_summary e) (ks1 ++ k :: ks2) []
  = (false, snd (match_keywords (entry_title e) (e_summary e) ks1 []))
  /\ do_entry set_order (ks1 ++ k :: ks2) old_id st e
     = do_entry set_order ks1 old_id st e.
Proof.
  intros Hr Hm Hok.
  pose proof (match_keywords_break _ _ ks1 ks2 k [] Hr Hm Hok) as Hb.
  split; [done|]. unfold do_entry, evaluate_entry.
  destruct (before_marker old_id (entry_id e)) as [[|]|]; simpl; try done.
  rewrite Hb.
  by destruct (match_keywords (entry_title e) (e_summary e) ks1 []).
Qed.

Lemma required_failure_cuts_the_rule_list_witness :
  do_entry first_seen ([rule_jet] ++ rule_black_hole :: [rule_nova]) None q0
           entry_jet
  = do_entry first_seen [rule_jet] None q0 entry_jet.
Proof.
  apply (required_failure_cuts_the_rule_list first_seen [rule_jet] [rule_nova]
           rule_black_hole None q0 entry_jet).
  - reflexivity.
  - vm_compute. reflexivity.
  - vm_compute. reflexivity.
Defined.

(** ** What a query returns *)

Lemma match_keywords_found (ttl abstract : pystr) (ks : list Keyword) :
  forall acc k,
  k ∈ snd (match_keywords ttl abstract ks acc) ->
  k ∈ acc \/ (k ∈ ks /\ get_match ttl abstract k = (true, false)).
Proof.
  induction ks as [|k0 ks IH]; intros acc k; simpl; [by left|].
  destruct (get_match ttl abstract k0) as [m x] eqn:E.
  destruct (required k0 && negb m); [by left|].
  destruct (m && negb x) eqn:Emx.
  - intros H. destruct (IH _ _ H) as [Ha | [Hk Hg]].
    + apply elem_of_app in Ha as [Ha | Ha]; [by left|].
      apply list_elem_of_singleton in Ha. subst k0. right.
      split; [apply elem_of_cons; by left|].
      apply andb_true_iff in Emx as [-> Hx]. apply negb_true_iff in Hx.
      by rewrite Hx in E.
    + right. split; [apply elem_of_cons; by right | done].
  - intros H. destruct (IH _ _ H) as [Ha | [Hk Hg]]; [by left|].
    right. split; [apply elem_of_cons; by right | done].
Qed.

Section Query.

Variable set_order : forall A : Type, list A -> list A.
Hypothesis set_order_perm : forall A (l : list A), set_order A l ≡ₚ l.

Lemma evaluate_entry_cases (ks : list Keyword) (st st' : qstate) (e : Entry) :
  evaluate_entry set_order ks st e = Some st' ->
  latest_id st' = latest_id st
  /\ (results st' = results st
      \/ exists p, results st' = results st ++ [p] /\ made_from ks e p).
Proof using set_order_perm.
  unfold evaluate_entry.
  destruct (match_keywords (entry_title e) (e_summary e) ks []) as [mr found] eqn:Em.
  destruct (py_set set_order str_eqb (map name found)) as [|kw kws] eqn:Ek.
  - intros [= <-]. split; [done | by left].
  - destruct (find_url (e_links e) (cur_url st)) as [u|]; [|done]. simpl.
    intros [= <-]. split; [done|]. right. eexists. split; [done|].
    assert (forall k, k ∈ found ->
              k ∈ ks /\ get_match (entry_title e) (e_summary e) k = (true, false))
      as Hfound.
    { intros k Hk. pose proof (match_keywords_found (entry_title e) (e_summary e) ks [] k) as H.
      rewrite Em in H. destruct (H Hk) as [Ha | Hb]; [|done].
      by apply elem_of_nil in Ha. }
    unfold made_from. simpl.
    split; [done|]. split; [done|]. split; [done|].
    split; [rewrite <- Ek; apply (py_set_NoDup set_order set_order_perm),
              str_eqb_true|].
    split; [apply (py_set_NoDup set_order set_order_perm), opt_str_eqb_true|].
    split; [|split; [|done]].
    + intros x Hx. rewrite <- Ek in Hx.
      apply (py_set_elem_of set_order set_order_perm) in Hx;
        [|apply str_eqb_true].
      apply list_elem_of_In, in_map_iff in Hx as (k & <- & Hk).
      exists k. split; [|done]. by apply Hfound, list_elem_of_In.
    + intros c Hc.
      apply (py_set_elem_of set_order set_order_perm) in Hc;
        [|apply opt_str_eqb_true].
      apply list_elem_of_In, in_map_iff in Hc as (k & <- & Hk).
      exists k. split; [|done]. by apply Hfound, list_elem_of_In.
Qed.

Lemma do_entry_cases (ks : list Keyword) (old_id : option pystr)
    (st st' : qstate) (e : Entry) :
  do_entry set_order ks old_id st e = Some st' ->
  latest_id st' = match latest_id st with
                  | None => Some (entry_id e)
                  | l => l
                  end
  /\ (results st' = results st
      \/ exists p, results st' = results st ++ [p] /\ made_from ks e p
                   /\ before_marker old_id (entry_id e) = Some false).
Proof using set_order_perm.
  unfold do_entry.
  destruct (before_marker old_id (entry_id e)) as [[|]|] eqn:Eb; simpl; [| |done].
  - intros [= <-]. split; [done | by left].
  - intros H. destruct (evaluate_entry_cases _ _ _ _ H) as [Hl Hr].
    split; [done|]. destruct Hr as [Hr | (p & Hr & Hp)]; [by left|].
    right. by exists p.
Qed.

Lemma do_entries_results (ks : list Keyword) (old_id : option pystr)
    (es : list Entry) :
  forall st st',
  do_entries set_order ks old_id st es = Some st' ->
  latest_id st' = match latest_id st with
                  | None => head (map entry_id es)
                  | l => l
                  end
  /\ exists es' new,
       results st' = results st ++ new
       /\ sublist es' es
       /\ Forall2 (made_from ks) es' new
       /\ Forall (fun e => before_marker old_id (entry_id e) = Some false) es'.
Proof using set_order_perm.
  induction es as [|e es IH]; intros st st'; simpl.
  - intros [= <-]. split; [by destruct (latest_id st)|].
    exists [], []. rewrite app_nil_r. repeat split; constructor.
  - destruct (do_entry set_order ks old_id st e) as [st1|] eqn:E1; [|done].
    simpl. intros H.
    destruct (do_entry_cases _ _ _ _ _ E1) as [Hl1 Hr1].
    destruct (IH _ _ H) as (Hl & es' & new & Hres & Hsub & Hmade & Hmark).
    split.
    { rewrite Hl, Hl1. by destruct (latest_id st). }
    destruct Hr1 as [Hr1 | (p & Hr1 & Hp & Hb)].
    + exists es', new. rewrite Hres, Hr1.
      split; [done|]. split; [by constructor | done].
    + exists (e :: es'), (p :: new). rewrite Hres, Hr1, <- app_assoc.
      split; [done|]. split; [by constructor|]. split; by constructor.
Qed.

End Query.

(** X10: the papers a query returns come from entries of the feed, in the
    order of the feed and at most one from each; each is what the rules
    make of its entry, and with a prior marker none comes from an entry
    whose number is below the marker's. *)
Theorem do_query_papers set_order (ks : list Keyword)
    (old_id : option pystr) (es : list Entry) (papers : list Paper)
    (last : option pystr) :
  (forall A (l : list A), set_order A l ≡ₚ l) ->
  do_query set_order ks old_id es = Some (papers, last) ->
  exists es',
    sublist es' es
    /\ Forall2 (made_from ks) es' papers
    /\ Forall (fun e => before_marker old_id (entry_id e) = Some false) es'.
Proof.
  intros Hperm. unfold do_query.
  destruct (do_entries set_order ks old_id q0 es) as [st|] eqn:E; [|done].
  simpl. intros [= <- <-].
  destruct (do_entries_results set_order Hperm _ _ _ _ _ E)
    as (_ & es' & new & Hres & H).
  exists es'. simpl in Hres. by rewrite Hres.
Qed.

Lemma do_query_papers_witness :
  exists es',
    sublist es' [entry_jet]
    /\ Forall2 (made_from [rule_jet; rule_black_hole]) es' [paper_jet]
    /\ Forall (fun e => before_marker None (entry_id e) = Some false) es'.
Proof.
  apply (do_query_papers first_seen [rule_jet; rule_black_hole] None
           [entry_jet] [paper_jet] (Some id_jet)).
  - intros A l. apply first_seen_perm.
  - vm_compute. reflexivity.
Defined.

(** X11: the identifier a query hands back as the latest one is that of
    the first entry of the feed, whether or not that entry was passed
    over or matched, and there is none when the feed has no entry. *)
Theorem do_query_latest_id set_order (ks : list Keyword)
    (old_id : option pystr) (es : list Entry) (papers : list Paper)
    (last : option pystr) :
  (forall A (l : list A), set_order A l ≡ₚ l) ->
  do_query set_order ks old_id es = Some (papers, last) ->
  last = head (map entry_id es).
Proof.
  intros Hperm. unfold do_query.
  destruct (do_entries set_order ks old_id q0 es) as [st|] eqn:E; [|done].
  simpl. intros [= <- <-].
  by destruct (do_entries_results set_order Hperm _ _ _ _ _ E) as (-> & _).
Qed.

Lemma do_query_latest_id_witness :
  Some id_jet = head (map entry_id [entry_jet]).
Proof.
  apply (do_query_latest_id first_seen [rule_black_hole; rule_jet] None
           [entry_jet] [] (Some id_jet)).
  - intros A l. apply first_seen_perm.
  - vm_compute. reflexivity.
Defined.




(** ** The new marker *)

Lemma Qltb_false (a b : Q) : Qltb a b = false <-> (b <= a)%Q.
Proof.
  rewrite <- not_true_iff_false, Qltb_true.
  split; [apply Qnot_lt_le | apply Qle_not_lt].
Qed.

Lemma search_loop_marker set_order (ks : list Keyword) (old_id : option pystr)
    (feeds : list (list Entry)) :
  (forall A (l : list A), set_order A l ≡ₚ l) ->
  forall (acc : list Paper) (cl : pystr) (c0 : Q) (out : list Paper) (l : pystr),
  float_of (strip_version cl) = Some c0 ->
  search_loop set_order ks old_id feeds acc cl = Some (out, l) ->
  Forall (fun es => es <> []) feeds
  /\ l ∈ marker_candidates cl feeds
  /\ exists v, float_of (strip_version l) = Some v
     /\ Forall (fun c => exists vc, float_of (strip_version c) = Some vc
                                    /\ (vc <= v)%Q)
               (marker_candidates cl feeds).
Proof.
  intros Hperm. unfold marker_candidates.
  induction feeds as [|es feeds IH]; intros acc cl c0 out l Hc; simpl.
  - intros [= <- <-]. split; [constructor|].
    split; [by apply list_elem_of_singleton|].
    exists c0. split; [done|]. constructor; [|constructor].
    exists c0. split; [done | apply Qle_refl].
  - unfold do_query.
    destruct (do_entries set_order ks old_id q0 es) as [st|] eqn:Ee; [|done].
    destruct (do_entries_results set_order Hperm _ _ _ _ _ Ee) as (Hl & _).
    simpl in Hl. simpl. rewrite Hc. simpl.
    destruct (latest_id st) as [li|] eqn:Eli; [|done]. simpl.
    destruct (float_of (strip_version li)) as [b|] eqn:Eb; [|done]. simpl.
    intros H.
    assert (es <> []) as Hne by (intros ->; done).
    rewrite <- Hl. simpl.
    destruct (Qltb c0 b) eqn:Elt.
    + destruct (IH _ _ b _ _ Eb H) as (Hf & Hin & v & Hv & Hall).
      apply Forall_cons in Hall as [(vb & Evb & Hle) Hall].
      assert (vb = b) as -> by congruence.
      split; [by constructor|]. split.
      { apply elem_of_cons in Hin as [-> | Hin].
        - apply elem_of_cons. right. apply elem_of_cons. by left.
        - apply elem_of_cons. right. apply elem_of_cons. by right. }
      exists v. split; [done|]. constructor.
      { exists c0. split; [done|]. apply Qltb_true, Qlt_le_weak in Elt.
        by eapply Qle_trans. }
      constructor; [|done]. exists b. done.
    + destruct (IH _ _ c0 _ _ Hc H) as (Hf & Hin & v & Hv & Hall).
      apply Forall_cons in Hall as [(vc & Evc & Hle) Hall].
      assert (vc = c0) as -> by congruence.
      split; [by constructor|]. split.
      { apply elem_of_cons in Hin as [-> | Hin].
        - apply elem_of_cons. by left.
        - apply elem_of_cons. right. apply elem_of_cons. by right. }
      exists v. split; [done|]. constructor; [by exists c0|].
      constructor; [|done]. exists b. split; [done|].
      apply Qltb_false in Elt. by eapply Qle_trans.
Qed.

(** X13: when [search_arxiv] returns, every feed had at least one entry,
    and the marker it returns is its starting value [0000.00000] or the
    first identifier of some feed, one whose number is not below the
    number of any of these. *)
Theorem search_arxiv_marker set_order (ks : list Keyword)
    (old_id : option pystr) (feeds : list (list Entry)) (out : list Paper)
    (last : pystr) :
  (forall A (l : list A), set_order A l ≡ₚ l) ->
  search_arxiv set_order ks old_id feeds = Some (out, last) ->
  Forall (fun es => es <> []) feeds
  /\ last ∈ marker_candidates (str "0000.00000") feeds
  /\ exists v, float_of (strip_version last) = Some v
     /\ Forall (fun c => exists vc, float_of (strip_version c) = Some vc
                                    /\ (vc <= v)%Q)
               (marker_candidates (str "0000.00000") feeds).
Proof.
  intros Hperm. unfold search_arxiv.
  destruct (search_loop set_order ks old_id feeds [] (str "0000.00000"))
    as [[cp cl]|] eqn:E; [|done].
  simpl. intros [= <- <-].
  apply (search_loop_marker set_order ks old_id feeds Hperm [] _ 0%Q cp); [|done].
  by vm_compute.
Qed.

Lemma search_arxiv_marker_witness :
  id_jet ∈ marker_candidates (str "0000.00000") [[entry_jet]; [entry_jet]].
Proof.
  apply (search_arxiv_marker first_seen [rule_jet] None
           [[entry_jet]; [entry_jet]] [paper_jet] id_jet).
  - intros A l. apply first_seen_perm.
  - vm_compute. reflexivity.
Defined.

(** ** What the filter selects *)

Lemma marks_lookup (h h' : list Paper) (r : nat) (p : Paper) :
  marks h h' -> h !! r = Some p ->
  exists p', h' !! r = Some p' /\ forall c n, wants c n p' = wants c n p.
Proof.
  intros [_ H] Hp. destruct (H r p Hp) as [E | E]; eexists; split; try exact E; done.
Qed.

Lemma filter_channels_selects (papers : list nat) (req : dict) :
  forall (h : list Paper) (f : list nat) (h' : list Paper) (f' : list nat),
  taken_inv papers h f ->
  filter_channels req papers h f = (h', f') ->
  taken_inv papers h' f' /\ marks h h'
  /\ forall r, r ∈ f' <->
               r ∈ f \/ (r ∈ papers
                         /\ exists p c n, h !! r = Some p /\ (c, n) ∈ req
                                          /\ wants c n p = true).
Proof.
  induction req as [|[c n] req IH]; intros h f h' f' Hinv; simpl.
  - intros [= <- <-]. split; [done|]. split; [apply marks_refl|].
    intros r. split; [by left|].
    intros [H | (_ & p & c & n & _ & H & _)]; [done|]. by apply elem_of_nil in H.
  - destruct (filter_channel c n papers h f) as [h1 f1] eqn:E1. intros E.
    destruct (filter_channel_spec papers c n papers h f h1 f1)
      as (Hinv1 & Hm1 & new & -> & Hnew & Hall); try done.
    destruct (IH _ _ _ _ Hinv1 E) as (Hinv' & Hm' & Hchar).
    split; [done|]. split; [by eapply marks_trans|].
    intros r. rewrite Hchar, elem_of_app. split.
    + intros [[Hf | Hn] | (Hr & p1 & c1 & n1 & Hp1 & Hc1 & Hw1)].
      * by left.
      * right. destruct (Hnew r Hn) as (Hr & _ & p & Hp & Hq).
        split; [done|]. exists p, c, n. split; [done|].
        split; [apply elem_of_cons; by left|].
        by apply andb_true_iff in Hq as [_ Hq].
      * right. split; [done|].
        destruct (marks_wants h h1 r p1 c1 n1 Hm1 Hp1) as (p & Hp & Hw & _).
        exists p, c1, n1. split; [done|].
        split; [apply elem_of_cons; by right | congruence].
    + intros [Hf | (Hr & p & c1 & n1 & Hp & Hc1 & Hw)]; [by left; left|].
      apply elem_of_cons in Hc1 as [[= -> ->] | Hc1].
      * left. apply elem_of_app. by apply (Hall r p).
      * right. split; [done|].
        destruct (marks_lookup h h1 r p Hm1 Hp) as (p1 & Hp1 & Hw1).
        exists p1, c1, n1. split; [done|]. split; [done|]. by rewrite Hw1.
Qed.

(** X14: the filter selects exactly the papers of the list that have a
    channel of the mapping among theirs and at least as many keywords as
    that channel requires; when it is done a paper of the list is marked
    as delivered exactly when it was selected, and no object has changed
    except in its flag. *)
Theorem filter_selects_the_wanted (papers : list nat) (req : dict)
    (h : list Paper) :
  let '(h', sel) := filter_keyword_requires papers (Some req) h in
  (forall r, r ∈ sel <->
             r ∈ papers
             /\ exists p c n, h !! r = Some p /\ (c, n) ∈ req
                              /\ wants c n p = true)
  /\ (forall r, r ∈ papers -> (posted h' r <-> r ∈ sel))
  /\ length h' = length h
  /\ (forall r p', h' !! r = Some p' ->
      exists p, h !! r = Some p /\ p' = set_posted (posted_to_slack p') p).
Proof.
  destruct (filter_keyword_requires papers (Some req) h) as [h' sel] eqn:E.
  unfold filter_keyword_requires in E.
  destruct (filter_channels_selects _ _ _ _ _ _ (taken_inv_reset papers h) E)
    as ((Hnd & Hpost & Hback) & Hm & Hchar).
  assert (forall r p0, reset_posted papers h !! r = Some p0 ->
            exists p, h !! r = Some p /\ p0 = set_posted (posted_to_slack p0) p)
    as Hreset.
  { intros r p0. rewrite reset_posted_lookup.
    destruct (decide (r ∈ papers)).
    - destruct (h !! r) as [p|]; simpl; [|done]. intros [= <-]. eauto.
    - intros Hp. exists p0. split; [done | by destruct p0]. }
  split; [|split; [|split]].
  - intros r. rewrite Hchar. split.
    + intros [Hf | (Hr & p0 & c & n & Hp0 & Hc & Hw)]; [by apply elem_of_nil in Hf|].
      split; [done|]. destruct (Hreset r p0 Hp0) as (p & Hp & Hp0').
      exists p, c, n. split; [done|]. split; [done|].
      by rewrite Hp0', wants_set_posted in Hw.
    + intros (Hr & p & c & n & Hp & Hc & Hw). right. split; [done|].
      exists (set_posted false p), c, n. split; [|done].
      rewrite reset_posted_lookup, Hp. by destruct (decide (r ∈ papers)).
  - intros r Hr. split; [by apply Hback | by apply Hpost].
  - destruct Hm as [-> _]. unfold reset_posted.
    clear. revert h. induction papers as [|r papers IH]; intros h; [done|].
    simpl. by rewrite IH, length_alter.
  - intros r p' Hp'.
    destruct (marks_wants _ _ r p' [] 0%Z Hm Hp') as (p0 & Hp0 & _ & _).
    destruct Hm as [_ Hm]. destruct (Hreset r p0 Hp0) as (p & Hp & Hp0').
    exists p. split; [done|].
    destruct (Hm r p0 Hp0) as [E' | E']; rewrite E' in Hp'; injection Hp' as <-.
    + done.
    + rewrite Hp0'. by destruct p.
Qed.

(** ** Posting without the filter *)


(** ** More on the RuleSet Parser *)

Lemma dict_set_keys (d : dict) (k : pystr) (v : Z) :
  dict_keys (dict_set d k v)
  = if str_mem k (dict_keys d) then dict_keys d else dict_keys d ++ [k].
Proof.
  unfold dict_keys. induction d as [|[k' v'] d IH]; simpl; [done|].
  rewrite (eq_true_iff_eq (str_eqb k k') (str_eqb k' k)).
  2:{ rewrite !str_eqb_true. split; by intros ->. }
  destruct (str_eqb k' k) eqn:E; simpl; [done|].
  rewrite IH. by destruct (str_mem k (map fst d)).
Qed.

Lemma dict_set_keys_NoDup (d : dict) (k : pystr) (v : Z) :
  NoDup (dict_keys d) -> NoDup (dict_keys (dict_set d k v)).
Proof.
  intros H. rewrite dict_set_keys.
  destruct (str_mem k (dict_keys d)) eqn:E; [done|].
  apply NoDup_app. split; [done|]. split; [|apply NoDup_singleton].
  intros x Hx Hk. apply list_elem_of_singleton in Hk. subst x.
  apply str_mem_true in Hx. congruence.
Qed.

Lemma dict_set_keys_mono (d : dict) (k : pystr) (v : Z) (c : pystr) :
  c ∈ dict_keys d -> c ∈ dict_keys (dict_set d k v).
Proof.
  intros H. rewrite dict_set_keys. destruct (str_mem k (dict_keys d)); [done|].
  apply elem_of_app. by left.
Qed.

Lemma dict_set_keys_new (d : dict) (k : pystr) (v : Z) :
  k ∈ dict_keys (dict_set d k v).
Proof.
  rewrite dict_set_keys. destruct (str_mem k (dict_keys d)) eqn:E.
  - by apply str_mem_true.
  - apply elem_of_app. right. by apply list_elem_of_singleton.
Qed.

(** X16: storing a requirement keeps the channels of the mapping distinct
    and in place, a new channel going last; afterwards the channel has
    the requirement stored, and every other channel the one it had. *)
Theorem dict_set_lookup (d : dict) (k : pystr) (v : Z) :
  NoDup (dict_keys d) ->
  NoDup (dict_keys (dict_set d k v))
  /\ dict_keys (dict_set d k v)
     = (if str_mem k (dict_keys d) then dict_keys d else dict_keys d ++ [k])
  /\ items_get (dict_set d k v) k = Some v
  /\ (forall c, c <> k -> items_get (dict_set d k v) c = items_get d c)
  /\ (forall c n, (c, n) ∈ dict_set d k v <-> items_get (dict_set d k v) c = Some n).
Proof.
  intros Hnd. split; [by apply dict_set_keys_NoDup|].
  split; [apply dict_set_keys|]. split; [|split].
  - clear Hnd. induction d as [|[k' v'] d IH]; simpl.
    + by rewrite str_eqb_refl.
    + destruct (str_eqb k' k) eqn:E; simpl; by rewrite E.
  - clear Hnd. intros c Hc. induction d as [|[k' v'] d IH]; simpl.
    + destruct (str_eqb k c) eqn:E; [|done]. by apply str_eqb_true in E.
    + destruct (str_eqb k' k) eqn:E; simpl; [|by rewrite IH].
      apply str_eqb_true in E. subst k'.
      destruct (str_eqb k c) eqn:E'; [|done]. by apply str_eqb_true in E'.
  - pose proof (dict_set_keys_NoDup d k v Hnd) as Hnd'.
    generalize dependent (dict_set d k v). clear. intros d' Hnd c n.
    induction d' as [|[k' v'] d' IH]; simpl.
    + split; [by intros ?%elem_of_nil | done].
    + unfold dict_keys in Hnd. simpl in Hnd. apply NoDup_cons in Hnd as [Hk' Hnd].
      rewrite elem_of_cons, (IH Hnd). destruct (str_eqb k' c) eqn:E.
      * apply str_eqb_true in E. subst k'. split.
        -- intros [[= ->] | H]; [done|]. exfalso. apply Hk'.
           assert ((c, n) ∈ d') as Hin by by apply IH.
           apply list_elem_of_In, in_map_iff. exists (c, n).
           split; [done | by apply list_elem_of_In].
        -- intros [= ->]. by left.
      * split; [|by right]. intros [[= -> _] | H]; [|done].
        by rewrite str_eqb_refl in E.
Qed.

Lemma dict_set_lookup_witness :
  items_get (dict_set [(general, 1%Z)] general 2%Z) general = Some 2%Z.
Proof.
  destruct (dict_set_lookup [(general, 1%Z)] general 2%Z) as (_ & _ & H & _).
  - apply NoDup_singleton.
  - exact H.
Defined.

Lemma parse_line_inv set_order (line : pystr) (st st' : pstate) :
  parse_line set_order line st = Some st' -> parser_inv st -> parser_inv st'.
Proof.
  unfold parse_line. destruct (rstrip (lower line)) as [|c0 l0] eqn:El.
  { by intros [= <-]. }
  generalize (c0 :: l0). intros l H (Hnd & Hcur & Hks). revert H.
  destruct (startswith (str "#") l || startswith (str "@") l).
  - unfold channel_line. intros H.
    destruct (head (split_ws l)) as [c|]; [|discriminate H].
    cbn [mbind option_bind] in H.
    destruct (if length (split_ws l) =? 2
              then s ← split_ws l !! 1; v ← split_on (str "=") s !! 1; int_of v
              else Some 1%Z) as [requires|]; [|discriminate H].
    cbn [mbind option_bind] in H. injection H as <-. unfold parser_inv. simpl.
    split; [by apply dict_set_keys_NoDup|]. split.
    + intros c' [= <-]. apply dict_set_keys_new.
    + intros k c' Hk Hc. by apply dict_set_keys_mono, (Hks k).
  - unfold keyword_line. intros H.
    destruct (if isin (str "not:") l
              then match split_on (str "not:") l with
                   | [kw; nots] =>
                       Some (strip kw, map strip (split_on (str ",") nots))
                   | _ => None
                   end
              else Some (strip l, [])) as [[kw excl]|]; [|discriminate H].
    cbn [mbind option_bind] in H. destruct (strip_suffixes kw) as [[kw2 mt] rq].
    injection H as <-. unfold parser_inv. simpl.
    split; [done|]. split; [done|].
    intros k c' [Hk | Hk]%elem_of_app Hc; [by apply (Hks k)|].
    apply list_elem_of_singleton in Hk. subst k. by apply Hcur.
Qed.

(** X17: in the state the parser reaches no channel is listed twice in
    the mapping, and the channel of every rule, where the rule has one,
    is a channel of the mapping. *)
Theorem parse_lines_channels_declared set_order (lines : list pystr)
    (st : pstate) :
  parse_lines set_order lines p0 = Some st -> parser_inv st.
Proof.
  assert (forall st0, parser_inv st0 ->
            parse_lines set_order lines st0 = Some st -> parser_inv st) as H.
  { induction lines as [|line lines IH]; intros st0 Hinv; simpl.
    - by intros [= <-].
    - destruct (parse_line set_order line st0) as [st1|] eqn:E; [|done].
      simpl. apply IH. by eapply parse_line_inv. }
  apply H. unfold parser_inv, p0. simpl.
  split; [apply NoDup_nil_2|]. split; [done|].
  intros k c Hk. by apply elem_of_nil in Hk.
Qed.

Lemma parse_lines_channels_declared_witness :
  parser_inv (mkP (Some general) [(general, 1%Z)]
                  [Keyword_init first_seen (str "jet") (str "any") false
                     (Some general) []]).
Proof.
  apply (parse_lines_channels_declared first_seen [str "#general"; str "jet"]).
  vm_compute. reflexivity.
Defined.

Lemma drop_while_all (f : ascii -> bool) (s : pystr) :
  Forall (fun c => f c = true) s -> drop_while f s = [].
Proof. induction 1 as [|c s Hc _ IH]; simpl; [done|]. by rewrite Hc. Qed.

Lemma drop_while_app_all (f : ascii -> bool) (ws s : pystr) :
  Forall (fun c => f c = true) ws -> drop_while f (ws ++ s) = drop_while f s.
Proof. induction 1 as [|c ws Hc _ IH]; simpl; [done|]. by rewrite Hc. Qed.

Lemma rstrip_blank (ws : pystr) :
  Forall (fun c => is_space c = true) ws -> rstrip ws = [].
Proof.
  intros H. unfold rstrip, rstrip_by. rewrite drop_while_all; [done|].
  by apply Forall_rev.
Qed.

Lemma rstrip_app_blank (s ws : pystr) :
  Forall (fun c => is_space c = true) ws -> rstrip (s ++ ws) = rstrip s.
Proof.
  intros H. unfold rstrip, rstrip_by.
  rewrite rev_app_distr, drop_while_app_all; [done|]. by apply Forall_rev.
Qed.

Lemma lower_blank (ws : pystr) :
  Forall (fun c => is_space c = true) ws ->
  Forall (fun c => is_space c = true) (lower ws).
Proof.
  intros H. unfold lower. apply Forall_forall. intros c Hc.
  apply list_elem_of_In, in_map_iff in Hc as (c' & <- & Hc').
  rewrite is_space_lower_char. rewrite Forall_forall in H.
  by apply H, list_elem_of_In.
Qed.

(** X18: a line of blanks only leaves the parser's state as it is; the
    case of a line does not matter; and blanks at the end of a line, the
    newline among them, are ignored. *)
Theorem parse_line_ignores set_order (line : pystr) (st : pstate) :
  (Forall (fun c => is_space c = true) line ->
   parse_line set_order line st = Some st)
  /\ parse_line set_order (lower line) st = parse_line set_order line st
  /\ (forall ws, Forall (fun c => is_space c = true) ws ->
      parse_line set_order (line ++ ws) st = parse_line set_order line st).
Proof.
  split; [|split].
  - intros H. unfold parse_line. by rewrite (rstrip_blank _ (lower_blank _ H)).
  - unfold parse_line. by rewrite lower_idem.
  - intros ws H. unfold parse_line, lower. rewrite map_app.
    by rewrite (rstrip_app_blank _ _ (lower_blank _ H)).
Qed.

Lemma parse_line_ignores_witness :
  parse_line first_seen (str "Black Hole!" ++ [LF]) p0
  = parse_line first_seen (str "Black Hole!") p0.
Proof.
  apply (parse_line_ignores first_seen (str "Black Hole!") p0).
  repeat constructor.
Defined.

(** X19: a line that begins with [#] or [@] and does not have exactly two
    words always declares its first word as a channel with the
    requirement 1, whatever else it says. *)
Theorem channel_line_default set_order (line : pystr) (st : pstate)
    (c0 : ascii) (rest : pystr) :
  rstrip (lower line) = c0 :: rest ->
  c0 = ascii_of_nat 35 \/ c0 = ascii_of_nat 64 ->
  length (split_ws (c0 :: rest)) <> 2 ->
  exists ch w,
    head (split_ws (c0 :: rest)) = Some ch /\ ch = c0 :: w
    /\ parse_line set_order line st
       = Some (mkP (Some ch) (dict_set (p_channel_req st) ch 1) (p_keywords st)).
Proof.
  intros El Hc Hlen. unfold parse_line. rewrite El.
  assert (startswith (str "#") (c0 :: rest) || startswith (str "@") (c0 :: rest)
          = true) as ->.
  { destruct Hc as [-> | ->]; done. }
  assert (is_space c0 = false) as Hsp by (destruct Hc as [-> | ->]; done).
  destruct (word_split (c0 :: rest) Hsp) as (w & post & E & Hw & Hnb & Hp).
  pose proof (split_ws_word w post Hw Hnb Hp) as Hsplit. rewrite <- E in Hsplit.
  destruct w as [|c w]; [done|]. injection E as <- _.
  exists (c0 :: w), w. unfold channel_line. rewrite Hsplit in *.
  split; [done|]. split; [done|]. simpl.
  apply Nat.eqb_neq in Hlen. simpl in Hlen. by rewrite Hlen.
Qed.

Lemma channel_line_default_witness :
  exists ch w,
    head (split_ws (str "#general requires = 3")) = Some ch
    /\ ch = ascii_of_nat 35 :: w
    /\ parse_line first_seen (str "#general requires = 3") p0
       = Some (mkP (Some ch) (dict_set (p_channel_req p0) ch 1) (p_keywords p0)).
Proof.
  apply (channel_line_default first_seen (str "#general requires = 3") p0
           (ascii_of_nat 35) (str "general requires = 3")).
  - reflexivity.
  - left. reflexivity.
  - vm_compute. lia.
Defined.

Lemma is_lower_lower (s : pystr) : is_lower (lower s).
Proof.
  unfold is_lower, lower. apply Forall_forall. intros c Hc.
  apply list_elem_of_In, in_map_iff in Hc as (c' & <- & _).
  apply lower_char_idem.
Qed.

Lemma is_lower_fixed (s : pystr) : is_lower s -> lower s = s.
Proof. induction 1 as [|c s Hc _ IH]; simpl; [done|]. by rewrite Hc, IH. Qed.

Section Pieces.

Variable P : ascii -> Prop.

Lemma drop_while_Forall (f : ascii -> bool) (s : pystr) :
  Forall P s -> Forall P (drop_while f s).
Proof.
  induction 1 as [|c s Hc Hs IH]; simpl; [constructor|].
  destruct (f c); [done | by constructor].
Qed.

Lemma rstrip_by_Forall (f : ascii -> bool) (s : pystr) :
  Forall P s -> Forall P (rstrip_by f s).
Proof.
  intros H. unfold rstrip_by. by apply Forall_rev, drop_while_Forall, Forall_rev.
Qed.

Lemma strip_by_Forall (f : ascii -> bool) (s : pystr) :
  Forall P s -> Forall P (strip_by f s).
Proof.
  intros H. unfold strip_by, lstrip_by.
  by apply rstrip_by_Forall, drop_while_Forall.
Qed.

Lemma split_on_aux_Forall (sep : pystr) (s : pystr) :
  forall (skip : nat) (cur : pystr),
  Forall P cur -> Forall P s ->
  Forall (Forall P) (split_on_aux sep skip cur s).
Proof.
  induction s as [|c s IH]; intros skip cur Hcur Hs; simpl.
  - constructor; [by apply Forall_rev | constructor].
  - apply Forall_cons in Hs as [Hc Hs]. destruct skip as [|k]; [|by apply IH].
    destruct (startswith sep (c :: s)).
    + constructor; [by apply Forall_rev|]. apply IH; [constructor | done].
    + apply IH; [by constructor | done].
Qed.

Lemma split_on_Forall (sep s : pystr) :
  Forall P s -> Forall (Forall P) (split_on sep s).
Proof. intros H. apply split_on_aux_Forall; [constructor | done]. Qed.

Lemma split_ws_Forall (s : pystr) :
  Forall P s -> Forall (Forall P) (split_ws s).
Proof.
  intros H. apply Forall_forall. intros t Ht.
  apply split_ws_tokens in Ht as (_ & _ & pre & post & -> & _).
  apply Forall_app in H as [_ H]. by apply Forall_app in H as [H _].
Qed.

Lemma strip_suffixes_Forall (kw : pystr) :
  Forall P kw -> Forall P (strip_suffixes kw).1.1.
Proof.
  intros H. unfold strip_suffixes, drop_last.
  destruct (isin (str "-") (last_two kw)), (isin (str "!") (last_two kw));
    simpl; repeat apply Forall_take; done.
Qed.

End Pieces.

Lemma parse_line_lower set_order (line : pystr) (st st' : pstate) :
  (forall A (l : list A), set_order A l ≡ₚ l) ->
  parse_line set_order line st = Some st' -> parser_lower st -> parser_lower st'.
Proof.
  intros Hperm. unfold parse_line.
  pose proof (rstrip_by_Forall _ is_space _ (is_lower_lower line)) as Hl.
  fold (rstrip (lower line)) in Hl.
  destruct (rstrip (lower line)) as [|c0 l0] eqn:El.
  { by intros [= <-]. }
  revert Hl. generalize (c0 :: l0). intros l Hl H (Hks & Hreq). revert H.
  destruct (startswith (str "#") l || startswith (str "@") l).
  - unfold channel_line. intros H.
    destruct (head (split_ws l)) as [c|] eqn:Eh; [|discriminate H].
    cbn [mbind option_bind] in H.
    destruct (if length (split_ws l) =? 2
              then s ← split_ws l !! 1; v ← split_on (str "=") s !! 1; int_of v
              else Some 1%Z) as [requires|]; [|discriminate H].
    cbn [mbind option_bind] in H. injection H as <-. split; [done|].
    simpl. intros c'. rewrite dict_set_keys.
    assert (is_lower c) as Hc.
    { pose proof (split_ws_Forall _ l Hl) as Hall.
      destruct (split_ws l) as [|w ws]; [done|]. injection Eh as <-.
      by apply Forall_cons in Hall as [Hw _]. }
    destruct (str_mem c (dict_keys (p_channel_req st))); [by apply Hreq|].
    intros [H | H]%elem_of_app; [by apply Hreq|].
    apply list_elem_of_singleton in H. by subst c'.
  - unfold keyword_line. intros H.
    assert (exists kw excl,
              is_lower kw /\ Forall is_lower excl
              /\ (let '(kw2, mt, rq) := strip_suffixes kw in
                  Some (mkP (p_channel st) (p_channel_req st)
                          (p_keywords st
                           ++ [Keyword_init set_order kw2 mt rq (p_channel st) excl])))
                 = Some st') as (kw & excl & Hkw & Hex & H').
    { destruct (isin (str "not:") l).
      - pose proof (split_on_Forall _ (str "not:") l Hl) as Hall.
        destruct (split_on (str "not:") l) as [|kw [|nots [|x r]]];
          try discriminate H.
        cbn [mbind option_bind] in H.
        apply Forall_cons in Hall as [Hkw Hall].
        apply Forall_cons in Hall as [Hnots _].
        exists (strip kw), (map strip (split_on (str ",") nots)).
        split; [by apply strip_by_Forall|]. split; [|done].
        apply Forall_forall. intros x Hx.
        apply list_elem_of_In, in_map_iff in Hx as (y & <- & Hy).
        apply strip_by_Forall.
        pose proof (split_on_Forall _ (str ",") nots Hnots) as Hall'.
        rewrite Forall_forall in Hall'. by apply Hall', list_elem_of_In.
      - cbn [mbind option_bind] in H. exists (strip l), [].
        split; [by apply strip_by_Forall|]. split; [constructor | done]. }
    pose proof (strip_suffixes_Forall _ kw Hkw) as Hname.
    destruct (strip_suffixes kw) as [[kw2 mt] rq]. simpl in Hname.
    injection H' as <-. split; [|done]. simpl.
    intros k [Hk | Hk]%elem_of_app; [by apply Hks|].
    apply list_elem_of_singleton in Hk. subst k. simpl. split; [done|].
    intros x Hx. apply (py_set_elem_of set_order Hperm) in Hx;
      [|apply str_eqb_true].
    rewrite Forall_forall in Hex. by apply Hex.
Qed.

(** X20: whatever the case of the inputs file, the text and the exclude
    terms of every rule the parser returns and every channel of its
    mapping are in lower case, the case the matcher puts the text of an
    entry in. *)
Theorem parse_lines_lower_case set_order (lines : list pystr) (st : pstate) :
  (forall A (l : list A), set_order A l ≡ₚ l) ->
  parse_lines set_order lines p0 = Some st ->
  (forall k, k ∈ p_keywords st ->
     lower (name k) = name k /\ forall x, x ∈ excludes k -> lower x = x)
  /\ (forall c, c ∈ dict_keys (p_channel_req st) -> lower c = c).
Proof.
  intros Hperm Hp.
  assert (forall st0, parser_lower st0 ->
            parse_lines set_order lines st0 = Some st -> parser_lower st) as H.
  { clear Hp. induction lines as [|line lines IH]; intros st0 Hinv; simpl.
    - by intros [= <-].
    - destruct (parse_line set_order line st0) as [st1|] eqn:E; [|done].
      simpl. apply IH. by eapply parse_line_lower. }
  destruct (H p0) as [Hks Hreq]; [|done|].
  { split; [intros k Hk | intros c Hc]; by apply elem_of_nil in Hk || apply elem_of_nil in Hc. }
  split.
  - intros k Hk. destruct (Hks k Hk) as [Hn Hx].
    split; [by apply is_lower_fixed|]. intros x Hxin. by apply is_lower_fixed, Hx.
  - intros c Hc. by apply is_lower_fixed, Hreq.
Qed.

Lemma parse_lines_lower_case_witness :
  parse_lines first_seen [str "#General"; str "Black Hole! NOT: Jet"] p0
  = Some (mkP (Some (str "#general")) [(str "#general", 1%Z)]
            [Keyword_init first_seen (str "black hole") (str "any") true
               (Some (str "#general")) [str "jet"]])
  /\ lower (str "black hole") = str "black hole"
  /\ lower (str "jet") = str "jet"
  /\ lower (str "#general") = str "#general".
Proof.
  assert (parse_lines first_seen [str "#General"; str "Black Hole! NOT: Jet"] p0
          = Some (mkP (Some (str "#general")) [(str "#general", 1%Z)]
                    [Keyword_init first_seen (str "black hole") (str "any") true
                       (Some (str "#general")) [str "jet"]])) as Hp.
  { vm_compute. reflexivity. }
  split; [exact Hp|].
  destruct (parse_lines_lower_case first_seen _ _
              (fun A l => first_seen_perm A l) Hp) as [Hk Hc].
  destruct (Hk (Keyword_init first_seen (str "black hole") (str "any") true
                  (Some (str "#general")) [str "jet"])) as [Hn Hx].
  { apply list_elem_of_singleton. reflexivity. }
  split; [exact Hn|]. split.
  - apply Hx. apply list_elem_of_singleton. reflexivity.
  - apply Hc. apply list_elem_of_singleton. reflexivity.
Defined.

Lemma lower_char_keeps (c : ascii) :
  ascii_eqb (ascii_of_nat 35) (lower_char c) = ascii_eqb (ascii_of_nat 35) c
  /\ ascii_eqb (ascii_of_nat 64) (lower_char c) = ascii_eqb (ascii_of_nat 64) c
  /\ ascii_eqb (ascii_of_nat 58) (lower_char c) = ascii_eqb (ascii_of_nat 58) c
  /\ plain_char (lower_char c) = plain_char c.
Proof. destruct c as [[] [] [] [] [] [] [] []]; repeat split; reflexivity. Qed.

Lemma isin_char (c : ascii) (h : pystr) : isin [c] h = existsb (ascii_eqb c) h.
Proof.
  induction h as [|y h IH]; [done|].
  cbn [isin startswith existsb]. rewrite IH.
  by destruct h; rewrite andb_true_r.
Qed.

Lemma isin_not_colon (h : pystr) :
  isin (str ":") h = false -> isin (str "not:") h = false.
Proof.
  intros H. apply not_true_iff_false. intros (pre & post & ->)%isin_true.
  apply not_true_iff_false in H. apply H, isin_true.
  exists (pre ++ str "not"), post. by rewrite <- !app_assoc.
Qed.

Lemma last_two_lower (w : pystr) : last_two (lower w) = lower (last_two w).
Proof. unfold last_two, lower. by rewrite length_map, skipn_map. Qed.

Lemma keyword_text_lower (w : pystr) :
  keyword_text w = true -> keyword_text (lower w) = true.
Proof.
  unfold keyword_text. rewrite !andb_true_iff.
  intros (((((H1 & H2) & H3) & H4) & H5) & H6). repeat split.
  - by rewrite starts_blank_lower.
  - unfold ends_blank in *. unfold lower. rewrite <- map_rev.
    fold (lower (rev w)). by rewrite starts_blank_lower.
  - destruct w as [|c w]; [done|].
    change (str "#") with [ascii_of_nat 35] in *.
    unfold lower. cbn [map startswith] in *.
    by rewrite (proj1 (lower_char_keeps c)).
  - destruct w as [|c w]; [done|].
    change (str "@") with [ascii_of_nat 64] in *.
    unfold lower. cbn [map startswith] in *.
    by rewrite (proj1 (proj2 (lower_char_keeps c))).
  - change (str ":") with [ascii_of_nat 58] in *. rewrite isin_char in *.
    rewrite <- H5. f_equal. clear. induction w as [|c w IH]; [done|].
    unfold lower in *. cbn [map existsb]. rewrite IH.
    by rewrite (proj1 (proj2 (proj2 (lower_char_keeps c)))).
  - rewrite last_two_lower, <- H6. generalize (last_two w). clear.
    intros l. induction l as [|c l IH]; [done|].
    unfold lower in *. cbn [map forallb]. rewrite IH.
    by rewrite (proj2 (proj2 (proj2 (lower_char_keeps c)))).
Qed.

Lemma rstrip_keeps (s : pystr) : ends_blank s = false -> rstrip s = s.
Proof.
  unfold ends_blank, rstrip, rstrip_by. destruct (rev s) as [|c r] eqn:E; [done|].
  simpl. intros ->. by rewrite <- E, rev_involutive.
Qed.

Lemma strip_keeps (s : pystr) :
  starts_blank s = false -> ends_blank s = false -> strip s = s.
Proof.
  intros H1 H2. unfold strip, strip_by, lstrip_by.
  destruct s as [|c s]; [done|]. simpl in H1. cbn [drop_while]. rewrite H1.
  by apply rstrip_keeps.
Qed.

Lemma keyword_line_plain set_order (line kw2 mt : pystr) (rq : bool)
    (st : pstate) :
  (forall A (l : list A), set_order A l ≡ₚ l) ->
  starts_blank (lower line) = false -> ends_blank (lower line) = false ->
  startswith (str "#") (lower line) = false ->
  startswith (str "@") (lower line) = false ->
  isin (str ":") (lower line) = false ->
  strip_suffixes (lower line) = (kw2, mt, rq) ->
  parse_line set_order line st
  = Some (mkP (p_channel st) (p_channel_req st)
            (p_keywords st ++ [mkKeyword kw2 mt rq (p_channel st) []])).
Proof.
  intros Hperm H1 H2 H3 H4 H5 H6. unfold parse_line.
  rewrite (rstrip_keeps _ H2). destruct (lower line) as [|c l] eqn:E; [done|].
  rewrite H3, H4. cbn [orb]. unfold keyword_line.
  rewrite (isin_not_colon _ H5). cbn [mbind option_bind].
  rewrite (strip_keeps _ H1 H2), H6. unfold Keyword_init.
  by rewrite (py_set_nil set_order Hperm).
Qed.

(** X21: a line that holds only the text of a rule, with no suffix, with
    one of the suffixes [-] and [!], or with both in either order, adds
    one rule to the list: its text is the text of the line in lower case,
    it matches whole words exactly when [-] was given and is required
    exactly when [!] was given, its channel is the current one and it has
    no exclude terms. *)
Theorem keyword_line_suffixes set_order (w : pystr) (st : pstate) :
  (forall A (l : list A), set_order A l ≡ₚ l) ->
  keyword_text w = true ->
  let rule mt rq :=
    Some (mkP (p_channel st) (p_channel_req st)
            (p_keywords st ++ [mkKeyword (lower w) mt rq (p_channel st) []])) in
  parse_line set_order w st = rule (str "any") false
  /\ parse_line set_order (w ++ str "-") st = rule (str "unique") false
  /\ parse_line set_order (w ++ str "!") st = rule (str "any") true
  /\ parse_line set_order (w ++ str "-!") st = rule (str "unique") true
  /\ parse_line set_order (w ++ str "!-") st = rule (str "unique") true.
Proof.
  intros Hperm Hw rule. subst rule. apply keyword_text_lower in Hw.
  assert (forall suf, lower (w ++ str suf) = lower w ++ lower (str suf)) as Hl.
  { intros suf. unfold lower. apply map_app. }
  revert Hw. unfold keyword_text. rewrite !andb_true_iff, !negb_true_iff.
  intros (((((H1 & H2) & H3) & H4) & H5) & H6).
  assert (plain_end (lower w) = true) as Hend.
  { unfold plain_end. unfold ends_blank in H2.
    destruct (rev (lower w)) as [|z r] eqn:E; [done|].
    apply (f_equal (@rev ascii)) in E. rewrite rev_involutive in E. simpl in E.
    rewrite E in H6. rewrite forallb_forall in H6. apply H6, list_elem_of_In.
    unfold last_two. rewrite length_app. simpl.
    rewrite drop_app_le by lia. apply elem_of_app. right.
    by apply list_elem_of_singleton. }
  destruct (strip_suffixes_well_formed _ Hend) as (S1 & S2 & S3 & S4).
  assert (strip_suffixes (lower w) = (lower w, str "any", false)) as S0.
  { apply strip_suffixes_plain.
    - change (str "-") with [ascii_of_nat 45]. rewrite isin_char.
      apply not_true_iff_false. intros (c & Hc & Hx)%existsb_exists.
      rewrite forallb_forall in H6. specialize (H6 c Hc).
      apply ascii_eqb_true in Hx. by subst c.
    - change (str "!") with [ascii_of_nat 33]. rewrite isin_char.
      apply not_true_iff_false. intros (c & Hc & Hx)%existsb_exists.
      rewrite forallb_forall in H6. specialize (H6 c Hc).
      apply ascii_eqb_true in Hx. by subst c. }
  assert (forall suf,
            Forall (fun c => is_space c = false
                             /\ ascii_eqb (ascii_of_nat 58) c = false) suf ->
            starts_blank (lower w ++ suf) = false
            /\ ends_blank (lower w ++ suf) = false
            /\ startswith (str "#") (lower w ++ suf) = false
            /\ startswith (str "@") (lower w ++ suf) = false
            /\ isin (str ":") (lower w ++ suf) = false) as Hsuf.
  { intros suf Hs. destruct (lower w) as [|a L]; [done|]. repeat split; try done.
    - unfold ends_blank in *. rewrite rev_app_distr.
      destruct (rev suf) as [|z r] eqn:E; [done|]. simpl.
      rewrite Forall_forall in Hs. apply Hs, list_elem_of_In, in_rev.
      rewrite E. by left.
    - change (str ":") with [ascii_of_nat 58] in *. rewrite isin_char in *.
      rewrite existsb_app, H5. simpl. apply not_true_iff_false.
      intros (c & Hc & Hx)%existsb_exists.
      rewrite Forall_forall in Hs. apply list_elem_of_In, Hs in Hc as [_ Hc].
      by rewrite Hc in Hx. }
  repeat split.
  - apply keyword_line_plain; done.
  - destruct (Hsuf (str "-")) as (A1 & A2 & A3 & A4 & A5);
      [by repeat constructor|].
    apply keyword_line_plain; rewrite ?Hl; done.
  - destruct (Hsuf (str "!")) as (A1 & A2 & A3 & A4 & A5);
      [by repeat constructor|].
    apply keyword_line_plain; rewrite ?Hl; done.
  - destruct (Hsuf (str "-!")) as (A1 & A2 & A3 & A4 & A5);
      [by repeat constructor|].
    apply keyword_line_plain; rewrite ?Hl; done.
  - destruct (Hsuf (str "!-")) as (A1 & A2 & A3 & A4 & A5);
      [by repeat constructor|].
    apply keyword_line_plain; rewrite ?Hl; done.
Qed.

Lemma keyword_line_suffixes_witness :
  parse_line first_seen (str "Black Hole") p0
  = Some (mkP None [] [mkKeyword (str "black hole") (str "any") false None []])
  /\ parse_line first_seen (str "Black Hole-!") p0
     = Some (mkP None []
               [mkKeyword (str "black hole") (str "unique") true None []]).
Proof.
  destruct (keyword_line_suffixes first_seen (str "Black Hole") p0)
    as (H0 & _ & _ & H3 & _).
  - intros A l. apply first_seen_perm.
  - vm_compute. reflexivity.
  - split; [exact H0 | exact H3].
Defined.

Lemma replace_nl_non_blank (s : pystr) : non_blank s -> replace_nl s = s.
Proof.
  induction 1 as [|c s Hc _ IH]; [done|].
  change (replace_nl (c :: s))
    with ((if ascii_eqb c LF then [SP] else [c]) ++ replace_nl s).
  rewrite IH. destruct (ascii_eqb c LF) eqn:E; [|done].
  apply ascii_eqb_true in E. by subst c.
Qed.

Lemma replace_nl_app (a b : pystr) :
  replace_nl (a ++ b) = replace_nl a ++ replace_nl b.
Proof. unfold replace_nl, replace_char. apply flat_map_app. Qed.

Lemma stripped_token_occurs (n s : pystr) :
  n ∈ map (fun l => strip_chars PUNCT (lower l)) (split_ws s) ->
  occurs n (lower s) /\ occurs n (replace_nl (lower s)).
Proof.
  intros (t & <- & Ht)%list_elem_of_In%in_map_iff.
  apply list_elem_of_In, split_ws_tokens in Ht as (_ & Hnb & pre & post & -> & _).
  destruct (strip_by_spec (char_in PUNCT) (lower t))
    as (p1 & p2 & E & _).
  change (strip_by (char_in PUNCT) (lower t))
    with (strip_chars PUNCT (lower t)) in E.
  assert (non_blank (strip_chars PUNCT (lower t))) as Hn.
  { assert (non_blank (lower t)) as Hl.
    { unfold non_blank, lower in *. apply Forall_forall.
      intros c (c' & <- & Hc)%list_elem_of_In%in_map_iff.
      rewrite is_space_lower_char. rewrite Forall_forall in Hnb.
      by apply Hnb, list_elem_of_In. }
    rewrite E in Hl. unfold non_blank in *.
    apply Forall_app in Hl as [_ Hl]. by apply Forall_app in Hl as [Hl _]. }
  assert (lower (pre ++ t ++ post)
          = (lower pre ++ p1) ++ strip_chars PUNCT (lower t)
            ++ (p2 ++ lower post)) as El.
  { unfold lower in *. rewrite !map_app. rewrite E at 1.
    by rewrite <- !app_assoc. }
  split.
  - by exists (lower pre ++ p1), (p2 ++ lower post).
  - exists (replace_nl (lower pre ++ p1)), (replace_nl (p2 ++ lower post)).
    by rewrite El, !replace_nl_app, (replace_nl_non_blank _ Hn).
Qed.

(** X22: whole-word matching is the stricter mode: when a rule in unique
    mode matches an entry, the rule with the same text and exclude terms
    in any mode gives the same result on it. *)
Theorem unique_match_is_any_match (ttl abstract : pystr) (k : Keyword) :
  matching k = str "unique" ->
  fst (get_match ttl abstract k) = true ->
  get_match ttl abstract (with_matching (str "any") k)
  = get_match ttl abstract k.
Proof.
  intros Hm. unfold get_match, with_matching. cbn [name matching excludes].
  destruct (existsb _ (excludes k)); [done|]. rewrite Hm.
  change (str_eqb (str "any") (str "any")) with true.
  change (str_eqb (str "unique") (str "any")) with false.
  change (str_eqb (str "unique") (str "unique")) with true. cbv iota.
  destruct (str_mem (name k) _) eqn:E; [intros _ | done].
  apply str_mem_true, elem_of_app in E.
  assert (isin (name k) (replace_nl (lower abstract))
          || isin (name k) (lower ttl) = true) as ->; [|done].
  apply orb_true_iff. rewrite !isin_true.
  destruct E as [E | E]; apply stripped_token_occurs in E as [E1 E2]; auto.
Qed.

Lemma unique_match_is_any_match_witness :
  get_match (str "A Nova, Observed") (str "we see
a nova.") (with_matching (str "any") rule_nova)
  = get_match (str "A Nova, Observed") (str "we see
a nova.") rule_nova.
Proof.
  apply unique_match_is_any_match; vm_compute; reflexivity.
Defined.
